(** * arrow-nav: keyboard spatial navigation and focus highlighter

    A shallow embedding of [src/arrow-nav.js], and in [Part000] of the
    selector and the key listeners of its older variant
    [src/unnamed/part_000], with the properties the specification states
    about them.

    JavaScript numbers are read as real numbers ([R]); the one place where the
    program computes with a non-number ([undefined] reaching [moveFocus]) is
    covered by [Num], which adds [NaN].  Timestamps ([Date.now()]) are
    integers.  The page is a record that holds what the program reads from the
    browser, together with the list of the calls the program made on it; the
    functions that act on the page take it and return it. *)

From Stdlib Require Import Reals Lra Lia ZArith List String Bool.
From Stdlib Require Import Sorted Permutation.
Import ListNotations.

(* ================================================================== *)
(** * Part I: the program *)
(* ================================================================== *)

(** ** JavaScript values and numbers *)

(** The values [keyToAngle] can hand to its callers, and [null], which the
    callers compare against. *)
Inductive JsValue : Type :=
| JsNumber (r : R)
| JsUndefined
| JsNull.

(** [v !== null] *)
Definition strictNotNull (v : JsValue) : bool :=
  match v with
  | JsNull => false
  | JsNumber _ | JsUndefined => true
  end.

(** A number that may be [NaN]. *)
Inductive Num : Type :=
| Finite (r : R)
| NaN.

(** ToNumber, as arithmetic applies it to an operand. *)
Definition ToNumber (v : JsValue) : Num :=
  match v with
  | JsNumber r => Finite r
  | JsUndefined => NaN
  | JsNull => Finite 0
  end.

(** Comparisons of reals as booleans. *)
Definition Rltb (a b : R) : bool := if Rlt_dec a b then true else false.
Definition Rgtb (a b : R) : bool := if Rgt_dec a b then true else false.
Definition Rleb (a b : R) : bool := if Rle_dec a b then true else false.

(** [a < b] and [a <= b] when an operand may be [NaN]: false as soon as one
    operand is [NaN]. *)
Definition Num_ltb (a b : Num) : bool :=
  match a, b with
  | Finite u, Finite v => Rltb u v
  | _, _ => false
  end.

Definition Num_leb (a b : Num) : bool :=
  match a, b with
  | Finite u, Finite v => Rleb u v
  | _, _ => false
  end.

(** ** The [Math] functions the program calls, on real numbers *)

Module Math.
Local Open Scope R_scope.

(** [Math.atan2(y, x)]: the angle of the point [(x, y)], in (-PI, PI]. *)
Definition atan2 (y x : R) : R :=
  if Rlt_dec 0 x then atan (y / x)
  else if Rlt_dec x 0 then
    if Rle_dec 0 y then atan (y / x) + PI else atan (y / x) - PI
  else if Rlt_dec 0 y then PI / 2
  else if Rlt_dec y 0 then - (PI / 2)
  else 0.

(** [Math.hypot(a, b)] *)
Definition hypot (a b : R) : R := sqrt (a * a + b * b).

Definition abs (a : R) : R := Rabs a.
Definition min (a b : R) : R := Rmin a b.
Definition max (a b : R) : R := Rmax a b.

(** [Math.pow(a, n)] for the natural exponents the program uses. *)
Definition pow (a : R) (n : nat) : R := a ^ n.
End Math.

(** ** Geometry *)

Module Point.
Record t : Type := mk { x : R; y : R }.
End Point.

(** A [DOMRect]: [x], [y], [width] and [height] are stored, the four edges are
    computed from them (the smaller and the larger end of each span). *)
Module DOMRect.
Local Open Scope R_scope.

Record t : Type := mk { x : R; y : R; width : R; height : R }.

Definition left (r : t) : R := Rmin (x r) (x r + width r).
Definition right (r : t) : R := Rmax (x r) (x r + width r).
Definition top (r : t) : R := Rmin (y r) (y r + height r).
Definition bottom (r : t) : R := Rmax (y r) (y r + height r).
End DOMRect.

(** What [getRectDiff] returns. *)
Record RectDiff : Type := mkRectDiff {
  distance : R;
  areAligned : bool;
  midAngle : R;
  minAngle : R
}.

Section Geometry.
Local Open Scope R_scope.

Definition getMiddle (rect : DOMRect.t) : Point.t :=
  {| Point.x := DOMRect.left rect + DOMRect.width rect / 2;
     Point.y := DOMRect.top rect + DOMRect.height rect / 2 |}.

Definition getAngle (a b : Point.t) : R :=
  Math.atan2 (Point.y b - Point.y a) (Point.x b - Point.x a).

Definition getAngleDiff (a b : R) : R :=
  let diff := b - a in
  let angle := Math.atan2 (sin diff) (cos diff) in
  Math.abs angle.

Definition areAlignedVertically (rectA rectB : DOMRect.t) : bool :=
  negb (Rltb (DOMRect.right rectA) (DOMRect.left rectB)
        || Rgtb (DOMRect.left rectA) (DOMRect.right rectB)).

Definition areAlignedHorizontally (rectA rectB : DOMRect.t) : bool :=
  negb (Rltb (DOMRect.bottom rectA) (DOMRect.top rectB)
        || Rgtb (DOMRect.top rectA) (DOMRect.bottom rectB)).

Definition getRectDiff (rectA rectB : DOMRect.t) : RectDiff :=
  let middleA := getMiddle rectA in
  let middleB := getMiddle rectB in
  let midAngle := getAngle middleA middleB in
  if areAlignedVertically rectA rectB && areAlignedHorizontally rectA rectB then
    {| distance := 0;
       areAligned := true;
       midAngle := midAngle;
       minAngle := midAngle |}
  else if areAlignedVertically rectA rectB then
    {| distance :=
         Math.min (Math.abs (DOMRect.top rectA - DOMRect.bottom rectB))
                  (Math.abs (DOMRect.bottom rectA - DOMRect.top rectB));
       areAligned := true;
       midAngle := midAngle;
       minAngle :=
         if Rltb (DOMRect.top rectA) (DOMRect.bottom rectB)
         then PI / 2 else PI * 3 / 2 |}
  else if areAlignedHorizontally rectA rectB then
    {| distance :=
         Math.min (Math.abs (DOMRect.left rectA - DOMRect.right rectB))
                  (Math.abs (DOMRect.right rectA - DOMRect.left rectB));
       areAligned := true;
       midAngle := midAngle;
       minAngle :=
         if Rltb (DOMRect.left rectA) (DOMRect.right rectB)
         then 0 else PI |}
  else
    {| distance :=
         Math.hypot (Point.x middleA - Point.x middleB)
                    (Point.y middleA - Point.y middleB);
       areAligned := false;
       midAngle := midAngle;
       minAngle := midAngle |}.

(** [getAngleDiff(a, moveAngle)] at the call sites in [moveFocus], where
    [moveAngle] is whatever [keyToAngle] returned: with [undefined] the
    difference [b - a] is [NaN], and so is everything computed from it. *)
Definition getAngleDiffJs (a : R) (moveAngle : JsValue) : Num :=
  match ToNumber moveAngle with
  | Finite b => Finite (getAngleDiff a b)
  | NaN => NaN
  end.
End Geometry.

(** ** The page *)

(** An element of the page, with what the program reads from it.  [ident] stands
    for the identity of the object ([==], [===] on elements). *)
Record Element : Type := mkElement {
  ident : nat;
  boundingClientRect : DOMRect.t;       (* getBoundingClientRect() *)
  hasTabindex : bool;                   (* hasAttribute('tabindex') *)
  tabIndex : Z;
  visible : bool;                       (* checkVisibility({...}) *)
  takesFocus : bool;                    (* does focus() take effect? *)
  offsetWidth : R;
  (* parseFloat of the computed border radii *)
  borderTopLeftRadius : R;
  borderTopRightRadius : R;
  borderBottomLeftRadius : R;
  borderBottomRightRadius : R
}.

Definition sameElement (a b : Element) : bool := Nat.eqb (ident a) (ident b).

(** [a === b] for [b] an element or [null]. *)
Definition isElement (a : Element) (b : option Element) : bool :=
  match b with
  | Some e => sameElement a e
  | None => false
  end.

(** The calls the program makes on the page and on the event at hand. *)
Inductive Call : Type :=
| QuerySelectorAll
| Focus (target : nat) (preventScroll : bool)
| ScrollIntoView (target : nat)
| HistoryBack
| PreventDefault
| StopImmediatePropagation.

Record Page : Type := mkPage {
  activeElement : option Element;       (* document.activeElement *)
  selectorMatches : list Element;       (* what querySelectorAll(...) returns,
                                           in document order *)
  innerWidth : R;                       (* window.innerWidth *)
  innerHeight : R;                      (* window.innerHeight *)
  calls : list Call                     (* the calls made so far, oldest first *)
}.

Definition call (c : Call) (pg : Page) : Page :=
  {| activeElement := activeElement pg;
     selectorMatches := selectorMatches pg;
     innerWidth := innerWidth pg;
     innerHeight := innerHeight pg;
     calls := calls pg ++ [c] |}.

Definition setActiveElement (e : Element) (pg : Page) : Page :=
  {| activeElement := Some e;
     selectorMatches := selectorMatches pg;
     innerWidth := innerWidth pg;
     innerHeight := innerHeight pg;
     calls := calls pg |}.

(** [element.focus(options)]: the element becomes the active element when it
    takes the focus, and nothing changes when it does not. *)
Definition focus (preventScroll : bool) (e : Element) (pg : Page) : Page :=
  let pg' := call (Focus (ident e) preventScroll) pg in
  if takesFocus e then setActiveElement e pg' else pg'.

Definition scrollIntoView (e : Element) (pg : Page) : Page :=
  call (ScrollIntoView (ident e)) pg.

(** ** The directional selector *)

(** One entry of the candidate list: [{ element, rect, ...getRectDiff(..) }]. *)
Record Info : Type := mkInfo {
  element : Element;
  rect : DOMRect.t;
  diff : RectDiff
}.

(** [Array.prototype.sort(compare)]: a stable sort; [compare a b < 0] puts [a]
    first, [compare a b > 0] puts [b] first.  Written as an insertion sort
    from the right, so that an element goes in front of the later elements it
    does not have to follow. *)
Section Sort.
Context {A : Type} (compare : A -> A -> Z).

Fixpoint insert (a : A) (l : list A) : list A :=
  match l with
  | [] => [a]
  | b :: l' => if (compare a b <=? 0)%Z then a :: b :: l' else b :: insert a l'
  end.

Fixpoint sort (l : list A) : list A :=
  match l with
  | [] => []
  | a :: l' => insert a (sort l')
  end.
End Sort.

Section Selector.
Local Open Scope R_scope.

Definition getFocusableElements (pg : Page) : list Element * Page :=
  (filter (fun el => negb (hasTabindex el) || (tabIndex el >=? 0)%Z)
          (selectorMatches pg),
   call QuerySelectorAll pg).

(** The direction filter of [moveFocus]. *)
Definition inDirection (moveAngle : JsValue) (info : Info) : bool :=
  let maxAngle := PI / 4 in
  let angleDiff := getAngleDiffJs (minAngle (diff info)) moveAngle in
  Num_leb angleDiff (Finite maxAngle).

(** The off-screen filter of [moveFocus]. *)
Definition onScreenOrAligned (pg : Page) (info : Info) : bool :=
  if areAligned (diff info) then true
  else
    let allowedOffScreen := 2 / 10 in
    let scrWidth := innerWidth pg in
    let scrHeight := innerHeight pg in
    let isOffScreen :=
      Rltb (DOMRect.right (rect info)) (- scrWidth * allowedOffScreen)
      || Rgtb (DOMRect.left (rect info)) (scrWidth + scrWidth * allowedOffScreen)
      || Rltb (DOMRect.bottom (rect info)) (- scrHeight * allowedOffScreen)
      || Rgtb (DOMRect.top (rect info)) (scrHeight + scrHeight * allowedOffScreen) in
    negb isOffScreen.

(** The comparator handed to [sort]. *)
Definition compareInfo (moveAngle : JsValue) (a b : Info) : Z :=
  let aSmallest := (-1)%Z in
  let bSmallest := 1%Z in
  if areAligned (diff a) && negb (areAligned (diff b)) then aSmallest
  else if negb (areAligned (diff a)) && areAligned (diff b) then bSmallest
  else if Rltb (distance (diff a)) (distance (diff b)) then aSmallest
  else if Rltb (distance (diff b)) (distance (diff a)) then bSmallest
  else
    let aAngle := getAngleDiffJs (midAngle (diff a)) moveAngle in
    let bAngle := getAngleDiffJs (midAngle (diff a)) moveAngle in
    if Num_ltb aAngle bAngle then aSmallest
    else if Num_ltb bAngle aAngle then bSmallest
    else 0%Z.

(** The callback of [map]: [{ element, rect, ...getRectDiff(curRect, rect) }]. *)
Definition infoOf (curRect : DOMRect.t) (el : Element) : Info :=
  let rect := boundingClientRect el in
  {| element := el; rect := rect; diff := getRectDiff curRect rect |}.

(** The candidates of a navigation request, filtered and ranked. *)
Definition rankedCandidates (moveAngle : JsValue) (currentElement : Element)
    (focusableElements : list Element) (pg : Page) : list Info :=
  let curRect := boundingClientRect currentElement in
  sort (compareInfo moveAngle)
    (filter (onScreenOrAligned pg)
      (filter (inDirection moveAngle)
        (map (infoOf curRect)
          (filter visible
            (filter (fun el => negb (sameElement el currentElement))
               focusableElements))))).

(** [elements.find(info => { info.element.focus({preventScroll: true});
    return info.element === document.activeElement; })] *)
Fixpoint findFocus (elements : list Info) (pg : Page) : option Info * Page :=
  match elements with
  | [] => (None, pg)
  | info :: rest =>
      let pg' := focus true (element info) pg in
      if isElement (element info) (activeElement pg') then (Some info, pg')
      else findFocus rest pg'
  end.

Definition moveFocus (moveAngle : JsValue) (pg : Page) : Page :=
  let currentElement := activeElement pg in
  let '(focusableElements, pg) := getFocusableElements pg in
  match focusableElements with
  | [] => pg
  | first :: _ =>
      match currentElement with
      | None => focus false first pg
      | Some currentElement =>
          let elements :=
            rankedCandidates moveAngle currentElement focusableElements pg in
          match findFocus elements pg with
          | (Some focussed, pg') => scrollIntoView (element focussed) pg'
          | (None, pg') => pg'
          end
      end
  end.
End Selector.

(** ** The input handler *)

Section InputHandler.
Local Open Scope string_scope.

(** The [default] case evaluates [null] and falls off the end of the
    function, which therefore returns [undefined] there. *)
Definition keyToAngle (key : string) : JsValue :=
  if String.eqb key "ArrowUp" then JsNumber (PI * 3 / 2)
  else if String.eqb key "ArrowDown" then JsNumber (PI / 2)
  else if String.eqb key "ArrowLeft" then JsNumber PI
  else if String.eqb key "ArrowRight" then JsNumber 0
  else if String.eqb key "w" then JsNumber (PI * 3 / 2)
  else if String.eqb key "s" then JsNumber (PI / 2)
  else if String.eqb key "a" then JsNumber PI
  else if String.eqb key "d" then JsNumber 0
  else JsUndefined.

(** The state the two listeners share. *)
Record State : Type := mkState {
  page : Page;
  lastEventTime : Z
}.

Definition initialState (pg : Page) : State :=
  {| page := pg; lastEventTime := 0 |}.

(** The keydown listener.  [now] is what [Date.now()] returns in the test,
    [now'] what it returns after [moveFocus]. *)
Definition keydown (key : string) (now now' : Z) (st : State) : State :=
  let angle := keyToAngle key in
  if strictNotNull angle then
    let st :=
      if (now - lastEventTime st >? 100)%Z
      then {| page := moveFocus angle (page st); lastEventTime := now' |}
      else st in
    {| page := call StopImmediatePropagation (call PreventDefault (page st));
       lastEventTime := lastEventTime st |}
  else if String.eqb key "Backspace" then
    {| page := call StopImmediatePropagation
                 (call PreventDefault (call HistoryBack (page st)));
       lastEventTime := lastEventTime st |}
  else st.

(** The keyup listener. *)
Definition keyup (key : string) (st : State) : State :=
  let angle := keyToAngle key in
  if strictNotNull angle then
    {| page := call PreventDefault (page st); lastEventTime := 0 |}
  else st.
End InputHandler.

(** ** The highlight animator *)

Module Style.
(** The inline style the loop writes on the highlighting element, in px. *)
Record t : Type := mk {
  top : R;
  left : R;
  width : R;
  height : R;
  borderTopLeftRadius : R;
  borderTopRightRadius : R;
  borderBottomLeftRadius : R;
  borderBottomRightRadius : R
}.
End Style.

Record BorderRadius : Type := mkBorderRadius {
  topLeft : R;
  topRight : R;
  bottomLeft : R;
  bottomRight : R
}.

(** The variables the loop keeps between frames. *)
Record Highlighter : Type := mkHighlighter {
  targetElement : option Element;
  prevTargetElement : option Element;
  targetChangeTime : Z
}.

Section Animator.
Local Open Scope R_scope.

Definition lerp (a b t : R) : R := a + (b - a) * t.

Definition easeOut (t : R) : R := 1 - Math.pow (1 - t) 3.

(** [window.screen.width] and [window.screen.height] *)
Variables screenWidth screenHeight : R.

Definition getRect (element : option Element) : DOMRect.t :=
  match element with
  | None =>
      let offset := 100 in
      {| DOMRect.x := - offset;
         DOMRect.y := - offset;
         DOMRect.width := screenWidth + offset * 2;
         DOMRect.height := screenHeight + offset * 2 |}
  | Some element => boundingClientRect element
  end.

Definition getBorderRadius (element : option Element) : BorderRadius :=
  match element with
  | None =>
      {| topLeft := 0; topRight := 0; bottomLeft := 0; bottomRight := 0 |}
  | Some element =>
      let rect := boundingClientRect element in
      let max := Math.max (DOMRect.height rect) (DOMRect.width rect) in
      let scale := DOMRect.width rect / offsetWidth element in
      {| topLeft := Math.min max (scale * borderTopLeftRadius element);
         topRight := Math.min max (scale * borderTopRightRadius element);
         bottomLeft := Math.min max (scale * borderBottomLeftRadius element);
         bottomRight := Math.min max (scale * borderBottomRightRadius element) |}
  end.

Definition animationTime : R := 300.

(** The blend factor of a frame drawn at [now]. *)
Definition lerpPos (now targetChangeTime : Z) : R :=
  easeOut (Math.min 1 (IZR (now - targetChangeTime) / animationTime)).

(** [targetElement != document.activeElement] *)
Definition differs (a b : option Element) : bool :=
  match a, b with
  | Some a, Some b => negb (sameElement a b)
  | None, None => false
  | _, _ => true
  end.

(** One run of [loop].  [active] is [document.activeElement]; [now0] is what
    [Date.now()] returns when the target changes, [now] what it returns for
    the blend factor. *)
Definition loop (active : option Element) (now0 now : Z) (h : Highlighter)
  : Highlighter * Style.t :=
  let h :=
    if differs (targetElement h) active
    then {| targetElement := active;
            prevTargetElement := targetElement h;
            targetChangeTime := now0 |}
    else h in
  let lerpPos := lerpPos now (targetChangeTime h) in
  let targetRect := getRect (targetElement h) in
  let prevRect := getRect (prevTargetElement h) in
  let prevRadius := getBorderRadius (prevTargetElement h) in
  let targetRadius := getBorderRadius (targetElement h) in
  (h,
   {| Style.top := lerp (DOMRect.y prevRect) (DOMRect.y targetRect) lerpPos;
      Style.left := lerp (DOMRect.x prevRect) (DOMRect.x targetRect) lerpPos;
      Style.width := lerp (DOMRect.width prevRect) (DOMRect.width targetRect) lerpPos;
      Style.height := lerp (DOMRect.height prevRect) (DOMRect.height targetRect) lerpPos;
      Style.borderTopLeftRadius :=
        lerp (topLeft prevRadius) (topLeft targetRadius) lerpPos;
      Style.borderTopRightRadius :=
        lerp (topRight prevRadius) (topRight targetRadius) lerpPos;
      Style.borderBottomLeftRadius :=
        lerp (bottomLeft prevRadius) (bottomLeft targetRadius) lerpPos;
      Style.borderBottomRightRadius :=
        lerp (bottomRight prevRadius) (bottomRight targetRadius) lerpPos |}).
End Animator.

(** ** The older variant of the program ([src/unnamed/part_000])

    It shares the geometry, [getFocusableElements] and the animator's
    functions with [src/arrow-nav.js]; its selector keeps one best candidate
    while it walks the focusable elements, and its listeners switch on the
    key. *)

Module Part000.
Local Open Scope R_scope.

Inductive Direction : Type := ArrowUp | ArrowDown | ArrowLeft | ArrowRight.

Definition dirToAngle (direction : Direction) : R :=
  match direction with
  | ArrowUp => PI * 3 / 2
  | ArrowDown => PI / 2
  | ArrowLeft => PI
  | ArrowRight => 0
  end.

(** A number or [Infinity], for the two minima the loop starts at
    [Infinity]. *)
Inductive ExtNum : Type :=
| Real (r : R)
| Infinity.

(** [a < b] *)
Definition ltExt (a : R) (b : ExtNum) : bool :=
  match b with
  | Real r => Rltb a r
  | Infinity => true
  end.

(** [a <= b + tolerance] *)
Definition leExtPlus (a : R) (b : ExtNum) (tolerance : R) : bool :=
  match b with
  | Real r => Rleb a (r + tolerance)
  | Infinity => true
  end.

(** [Math.min(b, a)] *)
Definition minExt (b : ExtNum) (a : R) : ExtNum :=
  match b with
  | Real r => Real (Math.min r a)
  | Infinity => Real a
  end.

(** The variables of [moveFocus] the loop updates: [targetElement],
    [minDistance], [minAngle] and [minIsAligned]. *)
Record Best : Type := mkBest {
  target : option Element;
  minDistance : ExtNum;
  minAngleDiff : ExtNum;
  minIsAligned : bool
}.

(** [diff.isAligned]: the object [getRectDiff] returns has no such property
    (it is called [areAligned]), so the read gives [undefined]. *)
Definition isAligned (d : RectDiff) : bool := false.

(** The body of the [forEach] loop. *)
Definition visit (pg : Page) (curRect : DOMRect.t) (currentElement : Element)
    (wantedAngle : R) (best : Best) (element : Element) : Best :=
  if sameElement element currentElement then best
  else
    let rect := boundingClientRect element in
    let diff := getRectDiff curRect rect in
    let maxAngle := PI / 4 in
    if Rgtb (getAngleDiff (minAngle diff) wantedAngle) maxAngle then best
    else
      let allowedOffScreen := 2 / 10 in
      let isOffScreen :=
        Rltb (DOMRect.right rect) (- innerWidth pg * allowedOffScreen)
        || Rgtb (DOMRect.left rect) (innerWidth pg * (1 + allowedOffScreen))
        || Rltb (DOMRect.bottom rect) (- innerHeight pg * allowedOffScreen)
        || Rgtb (DOMRect.top rect) (innerHeight pg * (1 + allowedOffScreen)) in
      if negb (areAligned diff) && isOffScreen then best
      else
        let angle := getAngleDiff (midAngle diff) wantedAngle in
        if minIsAligned best && negb (areAligned diff) then best
        else if negb (minIsAligned best) && isAligned diff then
          {| target := Some element;
             minDistance := Real (distance diff);
             minAngleDiff := Real angle;
             minIsAligned := true |}
        else if ltExt (distance diff) (minDistance best) then
          {| target := Some element;
             minDistance := Real (distance diff);
             minAngleDiff := Real angle;
             minIsAligned := areAligned diff |}
        else
          let tolerance := 5 in
          if leExtPlus (distance diff) (minDistance best) tolerance
             && ltExt angle (minAngleDiff best) then
            {| target := Some element;
               minDistance := minExt (minDistance best) (distance diff);
               minAngleDiff := Real angle;
               minIsAligned := areAligned diff |}
          else best.

Definition noBest : Best :=
  {| target := None;
     minDistance := Infinity;
     minAngleDiff := Infinity;
     minIsAligned := false |}.

Definition moveFocus (direction : Direction) (pg : Page) : Page :=
  let currentElement := activeElement pg in
  let '(focusableElements, pg) := getFocusableElements pg in
  match focusableElements with
  | [] => pg
  | first :: _ =>
      match currentElement with
      | None => focus false first pg
      | Some currentElement =>
          let curRect := boundingClientRect currentElement in
          let wantedAngle := dirToAngle direction in
          let best :=
            fold_left (visit pg curRect currentElement wantedAngle)
              focusableElements noBest in
          match target best with
          | Some targetElement =>
              scrollIntoView targetElement (focus false targetElement pg)
          | None => pg
          end
      end
  end.

Local Open Scope string_scope.

(** The four [case] labels that lead to [moveFocus(event.key)]. *)
Definition directionOfKey (key : string) : option Direction :=
  if String.eqb key "ArrowUp" then Some ArrowUp
  else if String.eqb key "ArrowDown" then Some ArrowDown
  else if String.eqb key "ArrowLeft" then Some ArrowLeft
  else if String.eqb key "ArrowRight" then Some ArrowRight
  else None.

Definition keydown (key : string) (now now' : Z) (st : State) : State :=
  match directionOfKey key with
  | Some direction =>
      let st :=
        if (now - lastEventTime st >? 100)%Z
        then {| page := moveFocus direction (page st); lastEventTime := now' |}
        else st in
      {| page := call PreventDefault (page st);
         lastEventTime := lastEventTime st |}
  | None =>
      if String.eqb key "Backspace" then
        {| page := call PreventDefault (call HistoryBack (page st));
           lastEventTime := lastEventTime st |}
      else st
  end.

Definition keyup (key : string) (st : State) : State :=
  match directionOfKey key with
  | Some _ =>
      {| page := call PreventDefault (page st); lastEventTime := 0 |}
  | None => st
  end.
(** The highlighter of this variant does not poll the active element: two
    listeners keep its variables. *)



(** One run of its [loop]: the style written for the frame drawn at [now]. *)
Definition loop (screenWidth screenHeight : R) (now : Z) (h : Highlighter)
  : Style.t :=
  let lerpPos := lerpPos now (targetChangeTime h) in
  let targetRect := getRect screenWidth screenHeight (targetElement h) in
  let prevRect := getRect screenWidth screenHeight (prevTargetElement h) in
  let prevRadius := getBorderRadius (prevTargetElement h) in
  let targetRadius := getBorderRadius (targetElement h) in
  {| Style.top := lerp (DOMRect.y prevRect) (DOMRect.y targetRect) lerpPos;
     Style.left := lerp (DOMRect.x prevRect) (DOMRect.x targetRect) lerpPos;
     Style.width := lerp (DOMRect.width prevRect) (DOMRect.width targetRect) lerpPos;
     Style.height := lerp (DOMRect.height prevRect) (DOMRect.height targetRect) lerpPos;
     Style.borderTopLeftRadius :=
       lerp (topLeft prevRadius) (topLeft targetRadius) lerpPos;
     Style.borderTopRightRadius :=
       lerp (topRight prevRadius) (topRight targetRadius) lerpPos;
     Style.borderBottomLeftRadius :=
       lerp (bottomLeft prevRadius) (bottomLeft targetRadius) lerpPos;
     Style.borderBottomRightRadius :=
       lerp (bottomRight prevRadius) (bottomRight targetRadius) lerpPos |}.

(** The highlighting element is created and appended on every run of the
    script.  The document is given by the [id]s of its elements, in document
    order. *)
Definition createHighlightingElement (document : list string) : list string :=
  document ++ ["highlighting-element"].
End Part000.

(** ** The rest of the highlighter *)

Section Easings.
Local Open Scope R_scope.

Definition ease (t : R) : R :=
  if Rltb t (5 / 10) then 2 * t * t else -1 + (4 - 2 * t) * t.

(** [Math.pow(2, y)] for a real exponent. *)
Definition pow2 (y : R) : R := Rpower 2 y.

Definition easeInOutElastic (x : R) : R :=
  let c5 := (2 * PI) / (45 / 10) in
  if Req_dec_T x 0 then 0
  else if Req_dec_T x 1 then 1
  else if Rltb x (5 / 10)
  then - (pow2 (20 * x - 10) * sin ((20 * x - 11125 / 1000) * c5)) / 2
  else (pow2 (-20 * x + 10) * sin ((20 * x - 11125 / 1000) * c5)) / 2 + 1.

(** In the second to fourth branch [x -= c] updates [x] before the product
    reads it again. *)
Definition easeOutBounce (x : R) : R :=
  let n1 := 75625 / 10000 in
  let d1 := 275 / 100 in
  if Rltb x (1 / d1) then n1 * x * x
  else if Rltb x (2 / d1) then
    let x := x - (15 / 10) / d1 in n1 * x * x + 75 / 100
  else if Rltb x ((25 / 10) / d1) then
    let x := x - (225 / 100) / d1 in n1 * x * x + 9375 / 10000
  else
    let x := x - (2625 / 1000) / d1 in n1 * x * x + 984375 / 1000000.

Definition easeInOutBounce (x : R) : R :=
  if Rltb x (5 / 10)
  then (1 - easeOutBounce (1 - 2 * x)) / 2
  else (1 + easeOutBounce (2 * x - 1)) / 2.

Definition ptToPx (pt : R) : R := pt * (96 / 72).
End Easings.

Section Overlay.
Local Open Scope string_scope.

Definition highlightingId : string := "highlighting-element".

(** [document.getElementById(id)]: is there an element with this [id]?  The
    document is given by the [id]s of its elements, in document order. *)
Definition getElementById (document : list string) (id : string) : bool :=
  existsb (String.eqb id) document.

(** The start of the highlighter script: the highlighting element is created
    and appended to the body unless the document has one. *)
Definition createHighlightingElement (document : list string) : list string :=
  if getElementById document highlightingId then document
  else document ++ ["highlighting-element"].
End Overlay.

(** ** Vocabulary of the specification, and sample pages *)

Section Vocabulary.
Local Open Scope R_scope.

(** The spans of two rectangles overlap on the horizontal axis. *)
Definition overlapOnX (a b : DOMRect.t) : Prop :=
  DOMRect.left b <= DOMRect.right a /\ DOMRect.left a <= DOMRect.right b.

(** The spans of two rectangles overlap on the vertical axis. *)
Definition overlapOnY (a b : DOMRect.t) : Prop :=
  DOMRect.top b <= DOMRect.bottom a /\ DOMRect.top a <= DOMRect.bottom b.

(** The order the specification ranks candidates by, on its first two
    criteria: [a] may stand before [b]. *)
Definition ranksBefore (a b : Info) : Prop :=
  (areAligned (diff a) = true /\ areAligned (diff b) = false) \/
  (areAligned (diff a) = areAligned (diff b) /\
   distance (diff a) <= distance (diff b)).

(** The candidate takes the focus when asked to. *)
Definition takes (info : Info) : bool := takesFocus (element info).

(** The candidate is not the element [cur]. *)
Definition isNot (cur : Element) (info : Info) : Prop :=
  sameElement (element info) cur = false.

(** The focus calls of the attempts on the candidates [l], in order. *)
Definition focusCalls (l : list Info) : list Call :=
  map (fun info => Focus (ident (element info)) true) l.

(** An element that is visible, has no tabindex attribute and no rounded
    corners. *)
Definition plainElement (n : nat) (r : DOMRect.t) (takes : bool) : Element :=
  {| ident := n;
     boundingClientRect := r;
     hasTabindex := false;
     tabIndex := 0;
     visible := true;
     takesFocus := takes;
     offsetWidth := DOMRect.width r;
     borderTopLeftRadius := 0;
     borderTopRightRadius := 0;
     borderBottomLeftRadius := 0;
     borderBottomRightRadius := 0 |}.

Definition rect_0_0_100_100 : DOMRect.t := DOMRect.mk 0 0 100 100.
Definition rect_50_50_100_100 : DOMRect.t := DOMRect.mk 50 50 100 100.

(** A page for the ranking: the focused element [current] at the left, and to
    its right, at the same gap of 50, [lower] (which reaches further down than
    [current], so that its middle lies below) and [level] (exactly level with
    [current]); [lower] comes first in the document. *)
Definition current : Element := plainElement 0 rect_0_0_100_100 true.
Definition currentRect : DOMRect.t := boundingClientRect current.
Definition lowerElement (takes : bool) : Element :=
  plainElement 1 (DOMRect.mk 150 50 100 200) takes.
Definition lower : Element := lowerElement true.
Definition level : Element := plainElement 2 (DOMRect.mk 150 0 100 100) true.

Definition rankingPage : Page :=
  {| activeElement := Some current;
     selectorMatches := [current; lower; level];
     innerWidth := 1000;
     innerHeight := 800;
     calls := [] |}.

(** A page for the focus attempts: as [rankingPage], but [lower] does not
    take the focus. *)
Definition stubborn : Element := lowerElement false.

Definition stubbornPage : Page :=
  {| activeElement := Some current;
     selectorMatches := [current; stubborn; level];
     innerWidth := 1000;
     innerHeight := 800;
     calls := [] |}.

(** A page without focusable elements. *)
Definition emptyPage : Page :=
  {| activeElement := None;
     selectorMatches := [];
     innerWidth := 1000;
     innerHeight := 800;
     calls := [] |}.

(** A page on which no element holds the focus. *)
Definition unfocusedPage : Page :=
  {| activeElement := None;
     selectorMatches := [current; lower; level];
     innerWidth := 1000;
     innerHeight := 800;
     calls := [] |}.

(** A page for the older selector: [diagonal] lies below and to the right of
    [current], aligned on neither axis, at about 225 between the middles;
    [below] lies straight below, at a gap of 300; [diagonal] comes first in
    the document. *)
Definition diagonal : Element := plainElement 5 (DOMRect.mk 101 201 100 100) true.
Definition below : Element := plainElement 6 (DOMRect.mk 0 400 100 100) true.

Definition alignmentPage : Page :=
  {| activeElement := Some current;
     selectorMatches := [current; diagonal; below];
     innerWidth := 1000;
     innerHeight := 800;
     calls := [] |}.

(** The page of the specification's scenario: [current] holds the focus,
    [under] lies straight below it at a gap of 50, [beside] lies level with it
    to the right; [beside] comes first in the document. *)
Definition under : Element := plainElement 7 (DOMRect.mk 0 150 100 100) true.
Definition beside : Element := plainElement 8 (DOMRect.mk 300 0 100 100) true.

Definition scenarioPage : Page :=
  {| activeElement := Some current;
     selectorMatches := [current; beside; under];
     innerWidth := 1000;
     innerHeight := 800;
     calls := [] |}.


(** How often the selector has run on the page: each run of [moveFocus] asks
    for the focusable elements once. *)
Definition isQuery (c : Call) : bool :=
  match c with QuerySelectorAll => true | _ => false end.

Definition selectorRuns (pg : Page) : nat :=
  List.length (filter isQuery (calls pg)).

(** How often the program has asked the browser to go back. *)
Definition isBack (c : Call) : bool :=
  match c with HistoryBack => true | _ => false end.

Definition historyBacks (pg : Page) : nat :=
  List.length (filter isBack (calls pg)).

(** The keys [keyToAngle] maps to an angle. *)
Definition navigationKey (key : string) : Prop :=
  exists angle : R, keyToAngle key = JsNumber angle.

(** A key-down event, with the two readings of the clock its listener takes. *)
Record KeyDown : Type := mkKeyDown {
  key : string;
  time : Z;               (* Date.now() in the test *)
  timeAfter : Z           (* Date.now() after moveFocus *)
}.

Definition onKeyDown (e : KeyDown) (st : State) : State :=
  keydown (key e) (time e) (timeAfter e) st.

(** The times of the key-downs of a sequence at which the selector ran. *)
Fixpoint navigationTimes (events : list KeyDown) (st : State) : list Z :=
  match events with
  | [] => []
  | e :: events' =>
      let st' := onKeyDown e st in
      (if (selectorRuns (page st) <? selectorRuns (page st'))%nat
       then [time e] else [])
      ++ navigationTimes events' st'
  end.

(** [n] key-downs of [key], 10ms apart, the first at [start]. *)
Fixpoint repeated (key : string) (start : Z) (n : nat) : list KeyDown :=
  match n with
  | O => []
  | S n' => mkKeyDown key start start :: repeated key (start + 10) n'
  end.

(** An element whose declared radius (9999px) is far larger than its box of
    100 by 40. *)
Definition pill : Element :=
  {| ident := 4;
     boundingClientRect := DOMRect.mk 10 10 100 40;
     hasTabindex := false;
     tabIndex := 0;
     visible := true;
     takesFocus := true;
     offsetWidth := 100;
     borderTopLeftRadius := 9999;
     borderTopRightRadius := 9999;
     borderBottomLeftRadius := 9999;
     borderBottomRightRadius := 9999 |}.
End Vocabulary.

(** ** Further vocabulary *)

Section Vocabulary2.
Local Open Scope R_scope.

(** The four angles of the arrow directions. *)
Definition cardinalAngles : list R := [0; PI / 2; PI; PI * 3 / 2].

(** [v] lies between [a] and [b], in whichever order they come. *)
Definition between (a b v : R) : Prop := Rmin a b <= v <= Rmax a b.
End Vocabulary2.

Section Vocabulary3.
Local Open Scope R_scope.

(** Two rectangles for the relations: [boxBelow] lies straight below
    [rect_0_0_100_100] at a gap of 50, [boxRight] lies to its right at a gap
    of 200. *)
Definition boxBelow : DOMRect.t := DOMRect.mk 0 150 100 100.
Definition boxRight : DOMRect.t := DOMRect.mk 300 0 100 100.
End Vocabulary3.

Section Vocabulary4.
Local Open Scope R_scope.

(** The candidates of a navigation request before they are sorted: the
    argument of [sort] in [rankedCandidates]. *)
Definition filteredCandidates (moveAngle : JsValue) (currentElement : Element)
    (focusableElements : list Element) (pg : Page) : list Info :=
  filter (onScreenOrAligned pg)
    (filter (inDirection moveAngle)
      (map (infoOf (boundingClientRect currentElement))
        (filter visible
          (filter (fun el => negb (sameElement el currentElement))
             focusableElements)))).

(** [i] has the alignment and the distance of [k]. *)
Definition tiedWith (k i : Info) : bool :=
  Bool.eqb (areAligned (diff i)) (areAligned (diff k))
  && (if Req_dec_T (distance (diff i)) (distance (diff k)) then true else false).
End Vocabulary4.

Section Vocabulary5.
Local Open Scope string_scope.

(** The keys the listeners of [src/arrow-nav.js] are written for. *)
Definition navigationKeys : list string :=
  ["ArrowUp"; "ArrowDown"; "ArrowLeft"; "ArrowRight"; "w"; "s"; "a"; "d"].

(** The arrow keys, which the older listeners handle. *)
Definition arrowKeys : list string :=
  ["ArrowUp"; "ArrowDown"; "ArrowLeft"; "ArrowRight"].

(** The times of the key-downs of a sequence at which the selector ran, for
    either keydown listener. *)
Fixpoint navigationTimesOf (listener : string -> Z -> Z -> State -> State)
    (events : list KeyDown) (st : State) : list Z :=
  match events with
  | [] => []
  | e :: events' =>
      let st' := listener (key e) (time e) (timeAfter e) st in
      (if (selectorRuns (page st) <? selectorRuns (page st'))%nat
       then [time e] else [])
      ++ navigationTimesOf listener events' st'
  end.
End Vocabulary5.

Section Vocabulary6.
Local Open Scope R_scope.

(** The element [el] lies within the cone of the angle [wanted], seen from the
    rectangle [curRect]. *)
Definition inCone (curRect : DOMRect.t) (wanted : R) (el : Element) : Prop :=
  getAngleDiff (minAngle (getRectDiff curRect (boundingClientRect el))) wanted
  <= PI / 4.

(** What the older loop knows about its best candidate after the elements
    [seen]. *)
Definition bestAmong (curRect : DOMRect.t) (cur : Element) (wanted : R)
    (seen : list Element) (best : Part000.Best) : Prop :=
  match Part000.target best with
  | None => best = Part000.noBest
  | Some t =>
      In t seen /\ sameElement t cur = false /\ inCone curRect wanted t /\
      Part000.minIsAligned best
      = areAligned (getRectDiff curRect (boundingClientRect t))
  end.
End Vocabulary6.

Section Vocabulary7.
Local Open Scope R_scope.

(** The style that puts the overlay on the geometry of [element] (or, for no
    element, on the rect around the screen). *)
Definition styleOf (screenWidth screenHeight : R) (element : option Element)
  : Style.t :=
  let r := getRect screenWidth screenHeight element in
  let b := getBorderRadius element in
  {| Style.top := DOMRect.y r;
     Style.left := DOMRect.x r;
     Style.width := DOMRect.width r;
     Style.height := DOMRect.height r;
     Style.borderTopLeftRadius := topLeft b;
     Style.borderTopRightRadius := topRight b;
     Style.borderBottomLeftRadius := bottomLeft b;
     Style.borderBottomRightRadius := bottomRight b |}.

(** Every number of the style [s] lies between the numbers of [p] and [q]. *)
Definition styleBetween (p q s : Style.t) : Prop :=
  between (Style.top p) (Style.top q) (Style.top s) /\
  between (Style.left p) (Style.left q) (Style.left s) /\
  between (Style.width p) (Style.width q) (Style.width s) /\
  between (Style.height p) (Style.height q) (Style.height s) /\
  between (Style.borderTopLeftRadius p) (Style.borderTopLeftRadius q)
    (Style.borderTopLeftRadius s) /\
  between (Style.borderTopRightRadius p) (Style.borderTopRightRadius q)
    (Style.borderTopRightRadius s) /\
  between (Style.borderBottomLeftRadius p) (Style.borderBottomLeftRadius q)
    (Style.borderBottomLeftRadius s) /\
  between (Style.borderBottomRightRadius p) (Style.borderBottomRightRadius q)
    (Style.borderBottomRightRadius s).

(** A highlighter that rests on [current]. *)
Definition restingOnCurrent : Highlighter :=
  {| targetElement := Some current;
     prevTargetElement := None;
     targetChangeTime := 1000 |}.

(** An element with a small radius, drawn at its layout size. *)
Definition rounded : Element :=
  {| ident := 9;
     boundingClientRect := DOMRect.mk 10 10 100 40;
     hasTabindex := false;
     tabIndex := 0;
     visible := true;
     takesFocus := true;
     offsetWidth := 100;
     borderTopLeftRadius := 8;
     borderTopRightRadius := 8;
     borderBottomLeftRadius := 8;
     borderBottomRightRadius := 8 |}.
End Vocabulary7.

Section Vocabulary8.
Local Open Scope R_scope.

(** A page for the focus attempts of the two selectors: to the right of
    [current], at the same gap, [lower], which takes the focus, and
    [refusingLevel], level with [current], which does not. *)
Definition refusingLevel : Element :=
  plainElement 2 (DOMRect.mk 150 0 100 100) false.

Definition refusingPage : Page :=
  {| activeElement := Some current;
     selectorMatches := [current; lower; refusingLevel];
     innerWidth := 1000;
     innerHeight := 800;
     calls := [] |}.

End Vocabulary8.

(* ================================================================== *)
(** * Part II: properties *)
(* ================================================================== *)

(** ** Tactics and facts shared by the proofs *)

(** Decide the comparisons of reals met in the goal. *)
Ltac rdecide :=
  unfold Rltb, Rgtb, Rleb, Math.abs, Math.min, Math.max, Rmin, Rmax in *;
  repeat match goal with
         | |- context [Rlt_dec ?a ?b] => destruct (Rlt_dec a b)
         | |- context [Rgt_dec ?a ?b] => destruct (Rgt_dec a b)
         | |- context [Rle_dec ?a ?b] => destruct (Rle_dec a b)
         | H : context [Rlt_dec ?a ?b] |- _ => destruct (Rlt_dec a b)
         | H : context [Rgt_dec ?a ?b] |- _ => destruct (Rgt_dec a b)
         | H : context [Rle_dec ?a ?b] |- _ => destruct (Rle_dec a b)
         end.

Section GeometryFacts.
Local Open Scope R_scope.

Lemma Rltb_true (a b : R) : Rltb a b = true <-> a < b.
Proof. unfold Rltb; destruct (Rlt_dec a b); split; intros; try easy. Qed.

Lemma Rltb_false (a b : R) : Rltb a b = false <-> b <= a.
Proof. unfold Rltb; destruct (Rlt_dec a b); split; intros; try easy; lra. Qed.

Lemma Rgtb_true (a b : R) : Rgtb a b = true <-> b < a.
Proof. unfold Rgtb; destruct (Rgt_dec a b); split; intros; try easy. Qed.

Lemma Rgtb_false (a b : R) : Rgtb a b = false <-> a <= b.
Proof. unfold Rgtb; destruct (Rgt_dec a b); split; intros; try easy; lra. Qed.

Lemma Rleb_true (a b : R) : Rleb a b = true <-> a <= b.
Proof. unfold Rleb; destruct (Rle_dec a b); split; intros; try easy. Qed.

Lemma Rleb_false (a b : R) : Rleb a b = false <-> b < a.
Proof. unfold Rleb; destruct (Rle_dec a b); split; intros; try easy; lra. Qed.

Lemma left_le_right (r : DOMRect.t) : DOMRect.left r <= DOMRect.right r.
Proof. unfold DOMRect.left, DOMRect.right; rdecide; lra. Qed.

Lemma top_le_bottom (r : DOMRect.t) : DOMRect.top r <= DOMRect.bottom r.
Proof. unfold DOMRect.top, DOMRect.bottom; rdecide; lra. Qed.

Lemma areAlignedVertically_iff (rectA rectB : DOMRect.t) :
  areAlignedVertically rectA rectB = true <->
  DOMRect.left rectB <= DOMRect.right rectA /\
  DOMRect.left rectA <= DOMRect.right rectB.
Proof.
  unfold areAlignedVertically.
  rewrite negb_true_iff, orb_false_iff, Rltb_false, Rgtb_false. tauto.
Qed.

Lemma areAlignedHorizontally_iff (rectA rectB : DOMRect.t) :
  areAlignedHorizontally rectA rectB = true <->
  DOMRect.top rectB <= DOMRect.bottom rectA /\
  DOMRect.top rectA <= DOMRect.bottom rectB.
Proof.
  unfold areAlignedHorizontally.
  rewrite negb_true_iff, orb_false_iff, Rltb_false, Rgtb_false. tauto.
Qed.

(** *** [Math.atan2] *)

Lemma atan2_bounds (y x : R) : - PI < Math.atan2 y x <= PI.
Proof.
  pose proof PI_RGT_0 as Hpi.
  pose proof (atan_bound (y / x)) as Hb.
  unfold Math.atan2.
  destruct (Rlt_dec 0 x) as [Hx | Hx]; [lra |].
  destruct (Rlt_dec x 0) as [Hx' | Hx'].
  - destruct (Rle_dec 0 y) as [Hy | Hy].
    + assert (y / x <= 0).
      { unfold Rdiv. assert (/ x < 0) by now apply Rinv_lt_0_compat. nra. }
      assert (atan (y / x) <= 0).
      { destruct (Req_dec (y / x) 0) as [E | E].
        - rewrite E, atan_0. lra.
        - left. rewrite <- atan_0. apply atan_increasing. lra. }
      lra.
    + assert (0 < y / x).
      { unfold Rdiv. assert (/ x < 0) by now apply Rinv_lt_0_compat. nra. }
      assert (0 < atan (y / x)).
      { rewrite <- atan_0. now apply atan_increasing. }
      lra.
  - destruct (Rlt_dec 0 y); [lra |]. destruct (Rlt_dec y 0); lra.
Qed.

Lemma atan2_opp_abs (y x : R) :
  Rabs (Math.atan2 (- y) x) = Rabs (Math.atan2 y x).
Proof.
  pose proof PI_RGT_0 as Hpi.
  unfold Math.atan2.
  replace (- y / x) with (- (y / x)) by (unfold Rdiv; ring).
  rewrite atan_opp.
  destruct (Rlt_dec 0 x) as [Hx | Hx]; [apply Rabs_Ropp |].
  destruct (Rlt_dec x 0) as [Hx' | Hx'].
  - destruct (Rle_dec 0 (- y)) as [Hy | Hy]; destruct (Rle_dec 0 y) as [Hy' | Hy'].
    + assert (y = 0) by lra. subst y.
      unfold Rdiv. rewrite Rmult_0_l, atan_0. f_equal. lra.
    + rewrite <- Rabs_Ropp. f_equal. lra.
    + rewrite <- Rabs_Ropp. f_equal. lra.
    + lra.
  - destruct (Rlt_dec 0 (- y)); destruct (Rlt_dec 0 y); try lra;
      destruct (Rlt_dec (- y) 0); destruct (Rlt_dec y 0); try lra;
      try (rewrite <- Rabs_Ropp; f_equal; lra).
Qed.

Lemma atan2_0_1 : Math.atan2 0 1 = 0.
Proof.
  unfold Math.atan2. destruct (Rlt_dec 0 1); [| lra].
  unfold Rdiv. rewrite Rmult_0_l. apply atan_0.
Qed.

Lemma getAngleDiff_diag (a : R) : getAngleDiff a a = 0.
Proof.
  unfold getAngleDiff, Math.abs.
  replace (a - a) with 0 by ring.
  rewrite sin_0, cos_0, atan2_0_1. apply Rabs_R0.
Qed.

Lemma getAngleDiff_sym (a b : R) : getAngleDiff a b = getAngleDiff b a.
Proof.
  unfold getAngleDiff, Math.abs.
  replace (a - b) with (- (b - a)) by ring.
  rewrite sin_neg, cos_neg. symmetry. apply atan2_opp_abs.
Qed.

Lemma getAngleDiff_range (a b : R) : 0 <= getAngleDiff a b <= PI.
Proof.
  unfold getAngleDiff, Math.abs.
  pose proof (atan2_bounds (sin (b - a)) (cos (b - a))) as Hb.
  split; [apply Rabs_pos |].
  apply Rabs_le. lra.
Qed.
End GeometryFacts.

(** ** Geometry: overlapping rectangles *)

Section Overlap.
Local Open Scope R_scope.

(** C5.  For two rectangles whose spans overlap on both axes, [getRectDiff]
    (the spec's [relate]) returns distance 0 and [areAligned = true]; in
    particular it does so for a rectangle and itself. *)
Theorem getRectDiff_overlap :
  (forall rectA rectB : DOMRect.t,
      overlapOnX rectA rectB -> overlapOnY rectA rectB ->
      distance (getRectDiff rectA rectB) = 0 /\
      areAligned (getRectDiff rectA rectB) = true) /\
  (forall r : DOMRect.t,
      distance (getRectDiff r r) = 0 /\ areAligned (getRectDiff r r) = true).
Proof.
  assert (H : forall rectA rectB : DOMRect.t,
             overlapOnX rectA rectB -> overlapOnY rectA rectB ->
             distance (getRectDiff rectA rectB) = 0 /\
             areAligned (getRectDiff rectA rectB) = true).
  { intros rectA rectB Hx Hy.
    apply areAlignedVertically_iff in Hx.
    apply areAlignedHorizontally_iff in Hy.
    unfold getRectDiff. rewrite Hx, Hy. simpl. split; reflexivity. }
  split; [exact H |].
  intros r. apply H.
  - split; apply left_le_right.
  - split; apply top_le_bottom.
Qed.

Lemma getRectDiff_overlap_witness :
  distance (getRectDiff rect_0_0_100_100 rect_50_50_100_100) = 0 /\
  areAligned (getRectDiff rect_0_0_100_100 rect_50_50_100_100) = true.
Proof.
  apply (proj1 getRectDiff_overlap).
  - unfold overlapOnX, DOMRect.left, DOMRect.right; simpl; rdecide; lra.
  - unfold overlapOnY, DOMRect.top, DOMRect.bottom; simpl; rdecide; lra.
Defined.
End Overlap.

(** ** Geometry: the angular distance *)

Section AngularDistance.
Local Open Scope R_scope.

(** C6.  [getAngleDiff] (the spec's [angularDistance]) is symmetric, its
    result lies in [0, PI], and it is 0 on equal angles. *)
Theorem getAngleDiff_symmetric_bounded_zero :
  forall a b : R,
    getAngleDiff a b = getAngleDiff b a /\
    0 <= getAngleDiff a b <= PI /\
    getAngleDiff a a = 0.
Proof.
  intros a b. split; [apply getAngleDiff_sym |].
  split; [apply getAngleDiff_range | apply getAngleDiff_diag].
Qed.
End AngularDistance.

(** ** Geometry: the cases of [getRectDiff] *)

Section RectDiffCases.
Local Open Scope R_scope.

Lemma areAlignedVertically_false (rectA rectB : DOMRect.t) :
  areAlignedVertically rectA rectB = false <-> ~ overlapOnX rectA rectB.
Proof.
  rewrite <- not_true_iff_false, areAlignedVertically_iff. reflexivity.
Qed.

Lemma areAlignedHorizontally_false (rectA rectB : DOMRect.t) :
  areAlignedHorizontally rectA rectB = false <-> ~ overlapOnY rectA rectB.
Proof.
  rewrite <- not_true_iff_false, areAlignedHorizontally_iff. reflexivity.
Qed.

(** Aligned vertically only: the gap along the vertical axis, and a minAngle
    that points down or up. *)
Lemma getRectDiff_vertical (rectA rectB : DOMRect.t) :
  overlapOnX rectA rectB -> ~ overlapOnY rectA rectB ->
  getRectDiff rectA rectB =
  {| distance :=
       Rmin (Rabs (DOMRect.top rectA - DOMRect.bottom rectB))
            (Rabs (DOMRect.bottom rectA - DOMRect.top rectB));
     areAligned := true;
     midAngle := getAngle (getMiddle rectA) (getMiddle rectB);
     minAngle := if Rltb (DOMRect.top rectA) (DOMRect.bottom rectB)
                 then PI / 2 else PI * 3 / 2 |}.
Proof.
  intros Hx Hy.
  apply areAlignedVertically_iff in Hx.
  apply areAlignedHorizontally_false in Hy.
  unfold getRectDiff. rewrite Hx, Hy. reflexivity.
Qed.

(** Aligned horizontally only: the gap along the horizontal axis, and a
    minAngle that points right or left. *)
Lemma getRectDiff_horizontal (rectA rectB : DOMRect.t) :
  ~ overlapOnX rectA rectB -> overlapOnY rectA rectB ->
  getRectDiff rectA rectB =
  {| distance :=
       Rmin (Rabs (DOMRect.left rectA - DOMRect.right rectB))
            (Rabs (DOMRect.right rectA - DOMRect.left rectB));
     areAligned := true;
     midAngle := getAngle (getMiddle rectA) (getMiddle rectB);
     minAngle := if Rltb (DOMRect.left rectA) (DOMRect.right rectB)
                 then 0 else PI |}.
Proof.
  intros Hx Hy.
  apply areAlignedVertically_false in Hx.
  apply areAlignedHorizontally_iff in Hy.
  unfold getRectDiff. rewrite Hx, Hy. reflexivity.
Qed.

(** Aligned on neither axis: the distance between the middles. *)
Lemma getRectDiff_unaligned (rectA rectB : DOMRect.t) :
  ~ overlapOnX rectA rectB -> ~ overlapOnY rectA rectB ->
  getRectDiff rectA rectB =
  {| distance :=
       Math.hypot (Point.x (getMiddle rectA) - Point.x (getMiddle rectB))
                  (Point.y (getMiddle rectA) - Point.y (getMiddle rectB));
     areAligned := false;
     midAngle := getAngle (getMiddle rectA) (getMiddle rectB);
     minAngle := getAngle (getMiddle rectA) (getMiddle rectB) |}.
Proof.
  intros Hx Hy.
  apply areAlignedVertically_false in Hx.
  apply areAlignedHorizontally_false in Hy.
  unfold getRectDiff. rewrite Hx, Hy. reflexivity.
Qed.

(** The edges of a rectangle of non-negative width and height. *)
Lemma left_mk (x y w h : R) : 0 <= w -> DOMRect.left (DOMRect.mk x y w h) = x.
Proof. intros; unfold DOMRect.left; simpl; rdecide; lra. Qed.

Lemma right_mk (x y w h : R) : 0 <= w -> DOMRect.right (DOMRect.mk x y w h) = x + w.
Proof. intros; unfold DOMRect.right; simpl; rdecide; lra. Qed.

Lemma top_mk (x y w h : R) : 0 <= h -> DOMRect.top (DOMRect.mk x y w h) = y.
Proof. intros; unfold DOMRect.top; simpl; rdecide; lra. Qed.

Lemma bottom_mk (x y w h : R) : 0 <= h -> DOMRect.bottom (DOMRect.mk x y w h) = y + h.
Proof. intros; unfold DOMRect.bottom; simpl; rdecide; lra. Qed.
End RectDiffCases.

(** Rewrite the edges of a rectangle given by its numbers. *)
Ltac edges :=
  repeat first
    [ rewrite left_mk by lra | rewrite right_mk by lra
    | rewrite top_mk by lra | rewrite bottom_mk by lra ].

(** Evaluate a distance: minima of absolute values of known numbers. *)
Ltac rabs :=
  unfold Math.min, Math.abs, Rmin, Rabs;
  repeat match goal with
         | |- context [Rcase_abs ?a] => destruct (Rcase_abs a)
         | |- context [Rle_dec ?a ?b] => destruct (Rle_dec a b)
         end;
  lra.

(** ** The direction filter *)

Section DirectionFilter.
Local Open Scope R_scope.

Lemma inDirection_number (m : R) (info : Info) :
  inDirection (JsNumber m) info = true <->
  getAngleDiff (minAngle (diff info)) m <= PI / 4.
Proof. unfold inDirection, getAngleDiffJs; simpl. apply Rleb_true. Qed.


End DirectionFilter.

(** ** The ranking *)

Section Ranking.
Local Open Scope R_scope.

(** *** [sort] rearranges its input *)

Lemma insert_perm {A : Type} (cmp : A -> A -> Z) (a : A) (l : list A) :
  Permutation (a :: l) (insert cmp a l).
Proof.
  induction l as [| b l IH]; simpl; [reflexivity |].
  destruct (cmp a b <=? 0)%Z; [reflexivity |].
  rewrite perm_swap. now apply perm_skip.
Qed.

Lemma sort_perm {A : Type} (cmp : A -> A -> Z) (l : list A) :
  Permutation l (sort cmp l).
Proof.
  induction l as [| a l IH]; simpl; [reflexivity |].
  rewrite <- insert_perm. now apply perm_skip.
Qed.

(** *** What the comparator decides *)

(** The angles compared last are both computed from [a]: the comparator
    never tells two candidates apart by their angle. *)
Lemma compareInfo_same_key (moveAngle : JsValue) (a b : Info) :
  areAligned (diff a) = areAligned (diff b) ->
  distance (diff a) = distance (diff b) ->
  compareInfo moveAngle a b = 0%Z.
Proof.
  intros Ha Hd. unfold compareInfo. rewrite Ha, Hd.
  destruct (areAligned (diff b)); simpl;
    destruct (Rltb_false (distance (diff b)) (distance (diff b))) as [_ E];
    rewrite E by lra;
    destruct (getAngleDiffJs (midAngle (diff a)) moveAngle) as [r |]; simpl;
    try reflexivity;
    destruct (Rltb_false r r) as [_ E']; rewrite E' by lra; reflexivity.
Qed.

Lemma compareInfo_values (moveAngle : JsValue) (a b : Info) :
  compareInfo moveAngle a b = (-1)%Z \/
  compareInfo moveAngle a b = 0%Z \/
  compareInfo moveAngle a b = 1%Z.
Proof.
  unfold compareInfo.
  repeat match goal with
         | |- context [if ?c then _ else _] => destruct c
         end; auto.
Qed.

Lemma compareInfo_before (moveAngle : JsValue) (a b : Info) :
  (compareInfo moveAngle a b <=? 0)%Z = true <-> ranksBefore a b.
Proof.
  rewrite Z.leb_le. unfold compareInfo, ranksBefore.
  destruct (areAligned (diff a)), (areAligned (diff b)); simpl;
    try (split; [intros _; left; auto | intros _; lia]);
    try (split; [lia | intros [[? ?] | [? ?]]; congruence]).
  all: destruct (Rltb (distance (diff a)) (distance (diff b))) eqn:Hab;
    [ apply Rltb_true in Hab; split; [intros _; right; split; [auto | lra] | lia]
    | apply Rltb_false in Hab ].
  all: destruct (Rltb (distance (diff b)) (distance (diff a))) eqn:Hba;
    [ apply Rltb_true in Hba;
      split; [lia | intros [[? ?] | [_ ?]]; [congruence | lra]]
    | apply Rltb_false in Hba ].
  all: split; [intros _; right; split; [auto | lra] |].
  all: intros _;
    destruct (getAngleDiffJs (midAngle (diff a)) moveAngle) as [r |]; simpl;
    try lia;
    destruct (Rltb_false r r) as [_ E]; rewrite E by lra; lia.
Qed.

Lemma ranksBefore_total (a b : Info) : ranksBefore a b \/ ranksBefore b a.
Proof.
  unfold ranksBefore.
  destruct (areAligned (diff a)), (areAligned (diff b)); auto.
  - destruct (Rle_dec (distance (diff a)) (distance (diff b))); [auto |].
    right; right; split; [auto | lra].
  - destruct (Rle_dec (distance (diff a)) (distance (diff b))); [auto |].
    right; right; split; [auto | lra].
Qed.

Lemma ranksBefore_trans (a b c : Info) :
  ranksBefore a b -> ranksBefore b c -> ranksBefore a c.
Proof.
  unfold ranksBefore.
  intros [[Ha Hb] | [Hab Hd]] [[Hb' Hc] | [Hbc Hd']].
  - congruence.
  - left. split; congruence.
  - left. split; congruence.
  - right. split; [congruence | lra].
Qed.

(** *** [sort] with the comparator ranks by alignment, then by distance *)

Lemma insert_sorted (moveAngle : JsValue) (a : Info) (l : list Info) :
  StronglySorted ranksBefore l ->
  StronglySorted ranksBefore (insert (compareInfo moveAngle) a l).
Proof.
  induction 1 as [| b l Hl IH Hb]; simpl.
  - constructor; constructor.
  - destruct (compareInfo moveAngle a b <=? 0)%Z eqn:E.
    + apply compareInfo_before in E.
      constructor; [constructor; assumption |].
      constructor; [assumption |].
      eapply Forall_impl; [| exact Hb].
      intros c Hc. eapply ranksBefore_trans; eassumption.
    + assert (Hba : ranksBefore b a).
      { destruct (ranksBefore_total a b) as [H | H]; [| exact H].
        apply (compareInfo_before moveAngle) in H. congruence. }
      constructor; [exact IH |].
      eapply Permutation_Forall; [apply insert_perm |].
      constructor; assumption.
Qed.

Lemma sort_sorted (moveAngle : JsValue) (l : list Info) :
  StronglySorted ranksBefore (sort (compareInfo moveAngle) l).
Proof.
  induction l as [| a l IH]; simpl; [constructor |].
  now apply insert_sorted.
Qed.

(** Criteria (1) and (2) of the ranking: in the ranked list an aligned
    candidate never stands behind one that is not aligned, and of two
    candidates of equal alignment the one behind is not the closer one. *)
Lemma ranking_by_alignment_then_distance
    (moveAngle : JsValue) (l pre mid post : list Info) (a b : Info) :
  sort (compareInfo moveAngle) l = pre ++ a :: mid ++ b :: post ->
  (areAligned (diff b) = true -> areAligned (diff a) = true) /\
  (areAligned (diff a) = areAligned (diff b) ->
   distance (diff a) <= distance (diff b)).
Proof.
  intros E.
  pose proof (sort_sorted moveAngle l) as Hs. rewrite E in Hs.
  assert (Hab : ranksBefore a b).
  { clear E. induction pre as [| p pre IH]; simpl in Hs.
    - apply StronglySorted_inv in Hs. destruct Hs as [_ Hf].
      rewrite Forall_forall in Hf. apply Hf.
      apply in_or_app. right. left. reflexivity.
    - apply StronglySorted_inv in Hs. destruct Hs as [Hs _]. auto. }
  destruct Hab as [[Ha Hb] | [Hal Hd]].
  - split; [intros; assumption | intros; congruence].
  - split; [intros; congruence | intros; assumption].
Qed.

(** The example of the specification: an aligned candidate at distance 50,
    an aligned one at distance 10 and a non-aligned one at distance 1 are
    ranked aligned-10, aligned-50, non-aligned-1, in whatever order the
    document has them. *)
Lemma ranking_example (moveAngle : JsValue) (a50 a10 n1 : Info) (l : list Info) :
  areAligned (diff a50) = true -> distance (diff a50) = 50 ->
  areAligned (diff a10) = true -> distance (diff a10) = 10 ->
  areAligned (diff n1) = false -> distance (diff n1) = 1 ->
  Permutation [a50; a10; n1] l ->
  sort (compareInfo moveAngle) l = [a10; a50; n1].
Proof.
  intros A50 D50 A10 D10 A1 D1 Hp.
  assert (L1 : (compareInfo moveAngle a10 a50 <=? 0)%Z = true).
  { apply compareInfo_before. right. split; [congruence | lra]. }
  assert (L2 : (compareInfo moveAngle a50 a10 <=? 0)%Z = false).
  { apply not_true_iff_false. rewrite compareInfo_before.
    intros [[_ H] | [_ H]]; [congruence | lra]. }
  assert (L3 : (compareInfo moveAngle a10 n1 <=? 0)%Z = true).
  { apply compareInfo_before. left. auto. }
  assert (L4 : (compareInfo moveAngle a50 n1 <=? 0)%Z = true).
  { apply compareInfo_before. left. auto. }
  assert (L5 : (compareInfo moveAngle n1 a10 <=? 0)%Z = false).
  { apply not_true_iff_false. rewrite compareInfo_before.
    intros [[H _] | [H _]]; congruence. }
  assert (L6 : (compareInfo moveAngle n1 a50 <=? 0)%Z = false).
  { apply not_true_iff_false. rewrite compareInfo_before.
    intros [[H _] | [H _]]; congruence. }
  assert (Hl : l = [a50; a10; n1] \/ l = [a50; n1; a10] \/
               l = [a10; a50; n1] \/ l = [a10; n1; a50] \/
               l = [n1; a50; a10] \/ l = [n1; a10; a50]).
  { pose proof (Permutation_length Hp) as Hlen.
    destruct l as [| u [| v [| w [| ? ?]]]]; try discriminate.
    assert (Hu : In u [a50; a10; n1])
      by (eapply Permutation_in; [symmetry; exact Hp | left; auto]).
    assert (Hv : In v [a50; a10; n1])
      by (eapply Permutation_in; [symmetry; exact Hp | right; left; auto]).
    assert (Hw : In w [a50; a10; n1])
      by (eapply Permutation_in; [symmetry; exact Hp | right; right; left; auto]).
    assert (H50 : In a50 [u; v; w])
      by (eapply Permutation_in; [exact Hp | left; auto]).
    assert (H10 : In a10 [u; v; w])
      by (eapply Permutation_in; [exact Hp | right; left; auto]).
    assert (H1 : In n1 [u; v; w])
      by (eapply Permutation_in; [exact Hp | right; right; left; auto]).
    assert (N1 : a50 <> a10) by (intros ->; lra).
    assert (N2 : a50 <> n1) by (intros ->; congruence).
    assert (N3 : a10 <> n1) by (intros ->; congruence).
    simpl in *.
    repeat match goal with
           | H : _ \/ _ |- _ => destruct H
           | H : False |- _ => destruct H
           end; subst; try congruence; auto 10. }
  destruct Hl as [-> | [-> | [-> | [-> | [-> | ->]]]]]; simpl;
    repeat first [rewrite L1 | rewrite L2 | rewrite L3 | rewrite L4
                 | rewrite L5 | rewrite L6 | progress simpl]; reflexivity.
Qed.
End Ranking.

(** ** The ranking on a page where two candidates tie on alignment and distance *)

Section RankingTie.
Local Open Scope R_scope.

Lemma diff_lower (t : bool) :
  diff (infoOf currentRect (lowerElement t)) =
  {| distance := 50; areAligned := true;
     midAngle := Math.atan2 100 150; minAngle := 0 |}.
Proof.
  change (diff (infoOf currentRect (lowerElement t)))
    with (getRectDiff rect_0_0_100_100 (DOMRect.mk 150 50 100 200)).
  unfold rect_0_0_100_100.
  rewrite getRectDiff_horizontal.
  - unfold getAngle, getMiddle. simpl. edges.
    f_equal.
    + rabs.
    + f_equal; lra.
    + rdecide; lra.
  - unfold overlapOnX. edges. lra.
  - unfold overlapOnY. edges. lra.
Qed.

Lemma diff_level :
  diff (infoOf currentRect level) =
  {| distance := 50; areAligned := true;
     midAngle := Math.atan2 0 150; minAngle := 0 |}.
Proof.
  change (diff (infoOf currentRect level))
    with (getRectDiff rect_0_0_100_100 (DOMRect.mk 150 0 100 100)).
  unfold rect_0_0_100_100.
  rewrite getRectDiff_horizontal.
  - unfold getAngle, getMiddle. simpl. edges.
    f_equal.
    + rabs.
    + f_equal; lra.
    + rdecide; lra.
  - unfold overlapOnX. edges. lra.
  - unfold overlapOnY. edges. lra.
Qed.

(** [level] lies exactly in the direction ArrowRight. *)
Lemma angle_level : getAngleDiff (Math.atan2 0 150) 0 = 0.
Proof.
  assert (E : Math.atan2 0 150 = 0).
  { unfold Math.atan2. destruct (Rlt_dec 0 150); [| lra].
    unfold Rdiv. rewrite Rmult_0_l. apply atan_0. }
  rewrite E. apply getAngleDiff_diag.
Qed.

(** [lower] does not. *)
Lemma angle_lower : 0 < getAngleDiff (Math.atan2 100 150) 0.
Proof.
  assert (Hm : 0 < Math.atan2 100 150 < PI / 2).
  { unfold Math.atan2. destruct (Rlt_dec 0 150); [| lra].
    pose proof (atan_bound (100 / 150)).
    split; [| lra].
    rewrite <- atan_0. apply atan_increasing. lra. }
  set (m := Math.atan2 100 150) in *.
  unfold getAngleDiff, Math.abs.
  replace (0 - m) with (- m) by ring.
  rewrite sin_neg, cos_neg.
  assert (Hs : 0 < sin m) by (apply sin_gt_0; pose proof PI_RGT_0; lra).
  assert (Hc : 0 < cos m) by (apply cos_gt_0; lra).
  unfold Math.atan2. destruct (Rlt_dec 0 (cos m)); [| lra].
  apply Rabs_pos_lt.
  assert (Hn : - sin m / cos m < 0).
  { unfold Rdiv. assert (0 < / cos m) by now apply Rinv_0_lt_compat. nra. }
  apply (atan_increasing _ _) in Hn. rewrite atan_0 in Hn. lra.
Qed.

Lemma inDirection_right (el : Element) :
  minAngle (diff (infoOf currentRect el)) = 0 ->
  inDirection (keyToAngle "ArrowRight") (infoOf currentRect el) = true.
Proof.
  intros E. change (keyToAngle "ArrowRight") with (JsNumber 0).
  apply inDirection_number. rewrite E, getAngleDiff_diag.
  pose proof PI_RGT_0. lra.
Qed.

Lemma rankedCandidates_rankingPage (t : bool) (pg : Page) :
  rankedCandidates (keyToAngle "ArrowRight") current
    [current; lowerElement t; level] pg
  = [infoOf currentRect (lowerElement t); infoOf currentRect level].
Proof.
  unfold rankedCandidates. fold currentRect.
  change (filter (fun el => negb (sameElement el current))
            [current; lowerElement t; level])
    with [lowerElement t; level].
  change (filter visible [lowerElement t; level]) with [lowerElement t; level].
  cbn [map filter].
  rewrite !inDirection_right by (rewrite ?diff_lower, ?diff_level; reflexivity).
  cbn [filter]. unfold onScreenOrAligned.
  rewrite diff_lower, diff_level. cbn [areAligned filter sort insert].
  rewrite compareInfo_same_key
    by (rewrite diff_lower, diff_level; reflexivity).
  reflexivity.
Qed.

(** C1, at the page [rankingPage] with ArrowRight.  [lower] and [level] are
    both aligned with the focused element and both at distance 50, and
    [level] has the smaller [getAngleDiff] between its [midAngle] and the
    requested angle; criterion (3) would rank [level] first.  The program
    ranks [lower] first, as the document has them, and focuses it. *)
Theorem ranking_tie_not_broken_by_angle :
  let moveAngle := keyToAngle "ArrowRight" in
  let lowerInfo := infoOf (boundingClientRect current) lower in
  let levelInfo := infoOf (boundingClientRect current) level in
  areAligned (diff lowerInfo) = areAligned (diff levelInfo) /\
  distance (diff lowerInfo) = distance (diff levelInfo) /\
  getAngleDiff (midAngle (diff levelInfo)) 0
    < getAngleDiff (midAngle (diff lowerInfo)) 0 /\
  moveAngle = JsNumber 0 /\
  compareInfo moveAngle lowerInfo levelInfo = 0%Z /\
  compareInfo moveAngle levelInfo lowerInfo = 0%Z /\
  rankedCandidates moveAngle current [current; lower; level]
    (call QuerySelectorAll rankingPage) = [lowerInfo; levelInfo] /\
  activeElement (moveFocus moveAngle rankingPage) = Some lower.
Proof.
  intros moveAngle lowerInfo levelInfo.
  subst lowerInfo levelInfo. fold currentRect. unfold lower.
  rewrite !compareInfo_same_key
    by (rewrite diff_lower, diff_level; reflexivity).
  rewrite diff_lower, diff_level. simpl distance. simpl midAngle.
  rewrite angle_level.
  repeat split.
  - apply angle_lower.
  - apply rankedCandidates_rankingPage.
  - unfold moveFocus, getFocusableElements.
    change (filter _ (selectorMatches rankingPage))
      with [current; lowerElement true; level].
    change (activeElement rankingPage) with (Some current).
    cbv iota beta.
    subst moveAngle. rewrite rankedCandidates_rankingPage.
    reflexivity.
Qed.
End RankingTie.

(** ** The scenario of the specification: ArrowDown *)

Section DownScenario.
Local Open Scope R_scope.

Lemma diff_under :
  diff (infoOf currentRect under) =
  {| distance := 50; areAligned := true;
     midAngle := Math.atan2 150 0; minAngle := PI / 2 |}.
Proof.
  change (diff (infoOf currentRect under))
    with (getRectDiff (DOMRect.mk 0 0 100 100) (DOMRect.mk 0 150 100 100)).
  rewrite getRectDiff_vertical.
  - unfold getAngle, getMiddle. simpl. edges.
    f_equal.
    + rabs.
    + f_equal; lra.
    + rdecide; lra.
  - unfold overlapOnX. edges. lra.
  - unfold overlapOnY. edges. lra.
Qed.

Lemma diff_beside :
  diff (infoOf currentRect beside) =
  {| distance := 200; areAligned := true;
     midAngle := Math.atan2 0 300; minAngle := 0 |}.
Proof.
  change (diff (infoOf currentRect beside))
    with (getRectDiff (DOMRect.mk 0 0 100 100) (DOMRect.mk 300 0 100 100)).
  rewrite getRectDiff_horizontal.
  - unfold getAngle, getMiddle. simpl. edges.
    f_equal.
    + rabs.
    + f_equal; lra.
    + rdecide; lra.
  - unfold overlapOnX. edges. lra.
  - unfold overlapOnY. edges. lra.
Qed.

(** The angle 0 is a quarter turn away from the angle of ArrowDown. *)
Lemma getAngleDiff_0_down : getAngleDiff 0 (PI / 2) = PI / 2.
Proof.
  pose proof PI_RGT_0.
  unfold getAngleDiff, Math.abs.
  replace (PI / 2 - 0) with (PI / 2) by ring.
  rewrite sin_PI2, cos_PI2.
  unfold Math.atan2.
  destruct (Rlt_dec 0 0); [lra |].
  destruct (Rlt_dec 0 1); [| lra].
  apply Rabs_pos_eq. lra.
Qed.

(** On [scenarioPage], ArrowDown leaves [under] as the only candidate and
    moves the focus to it: [beside] is outside the cone. *)
Lemma moveFocus_scenarioPage :
  rankedCandidates (keyToAngle "ArrowDown") current [current; beside; under]
    (call QuerySelectorAll scenarioPage) = [infoOf currentRect under] /\
  activeElement (moveFocus (keyToAngle "ArrowDown") scenarioPage) = Some under.
Proof.
  assert (E : forall pg,
             rankedCandidates (keyToAngle "ArrowDown") current
               [current; beside; under] pg = [infoOf currentRect under]).
  { intros pg. unfold rankedCandidates. fold currentRect.
    change (filter (fun el => negb (sameElement el current))
              [current; beside; under])
      with [beside; under].
    change (filter visible [beside; under]) with [beside; under].
    cbn [map filter].
    change (keyToAngle "ArrowDown") with (JsNumber (PI / 2)).
    assert (Hb : inDirection (JsNumber (PI / 2)) (infoOf currentRect beside) = false).
    { apply not_true_iff_false. rewrite inDirection_number, diff_beside.
      cbn [minAngle]. rewrite getAngleDiff_0_down.
      pose proof PI_RGT_0. lra. }
    assert (Hu : inDirection (JsNumber (PI / 2)) (infoOf currentRect under) = true).
    { rewrite inDirection_number, diff_under. cbn [minAngle].
      rewrite getAngleDiff_diag. pose proof PI_RGT_0. lra. }
    rewrite Hb, Hu. cbn [filter]. unfold onScreenOrAligned.
    rewrite diff_under. reflexivity. }
  split; [apply E |].
  unfold moveFocus, getFocusableElements.
  change (filter _ (selectorMatches scenarioPage)) with [current; beside; under].
  change (activeElement scenarioPage) with (Some current).
  cbv iota beta. rewrite E. reflexivity.
Qed.
End DownScenario.

(** ** The focus attempts *)

Section FocusAttempts.

Lemma sameElement_refl (e : Element) : sameElement e e = true.
Proof. apply Nat.eqb_refl. Qed.

Lemma sameElement_sym (a b : Element) : sameElement a b = sameElement b a.
Proof. apply Nat.eqb_sym. Qed.

Lemma focusCalls_app (l1 l2 : list Info) :
  focusCalls (l1 ++ l2) = focusCalls l1 ++ focusCalls l2.
Proof. apply map_app. Qed.

(** The candidates never include the element that holds the focus. *)
Lemma rankedCandidates_isNot
    (moveAngle : JsValue) (cur : Element) (l : list Element) (pg : Page) :
  Forall (isNot cur) (rankedCandidates moveAngle cur l pg).
Proof.
  unfold rankedCandidates.
  eapply Permutation_Forall; [apply sort_perm |].
  apply Forall_forall. intros info Hin.
  apply filter_In in Hin. destruct Hin as [Hin _].
  apply filter_In in Hin. destruct Hin as [Hin _].
  apply in_map_iff in Hin. destruct Hin as [el [<- Hin]].
  apply filter_In in Hin. destruct Hin as [Hin _].
  apply filter_In in Hin. destruct Hin as [_ Hne].
  apply negb_true_iff in Hne. exact Hne.
Qed.

(** One attempt on a candidate that does not take the focus. *)
Lemma focus_refused (e cur : Element) (pg : Page) :
  takesFocus e = false ->
  activeElement pg = Some cur ->
  sameElement e cur = false ->
  activeElement (focus true e pg) = Some cur /\
  calls (focus true e pg) = calls pg ++ [Focus (ident e) true] /\
  isElement e (activeElement (focus true e pg)) = false.
Proof.
  intros Ht Ha Hne. unfold focus. rewrite Ht. simpl.
  rewrite Ha. simpl. auto.
Qed.

(** One attempt on a candidate that takes the focus. *)
Lemma focus_taken (e : Element) (pg : Page) :
  takesFocus e = true ->
  activeElement (focus true e pg) = Some e /\
  calls (focus true e pg) = calls pg ++ [Focus (ident e) true] /\
  isElement e (activeElement (focus true e pg)) = true.
Proof.
  intros Ht. unfold focus. rewrite Ht. simpl.
  rewrite sameElement_refl. auto.
Qed.

(** [findFocus] tries the candidates in order, up to the first that takes
    the focus. *)
Lemma findFocus_walk (cur : Element) (l : list Info) :
  forall pg : Page,
    activeElement pg = Some cur ->
    Forall (isNot cur) l ->
    match find takes l with
    | Some info =>
        exists pre post,
          l = pre ++ info :: post /\
          Forall (fun i => takes i = false) pre /\
          fst (findFocus l pg) = Some info /\
          activeElement (snd (findFocus l pg)) = Some (element info) /\
          calls (snd (findFocus l pg)) = calls pg ++ focusCalls (pre ++ [info])
    | None =>
        fst (findFocus l pg) = None /\
        activeElement (snd (findFocus l pg)) = Some cur /\
        calls (snd (findFocus l pg)) = calls pg ++ focusCalls l
    end.
Proof.
  induction l as [| info l IH]; intros pg Ha Hl.
  - simpl. rewrite app_nil_r. auto.
  - apply Forall_cons_iff in Hl. destruct Hl as [Hi Hl].
    cbn [find findFocus]. destruct (takes info) eqn:Ht.
    + destruct (focus_taken (element info) pg Ht) as [A [C I]].
      rewrite I. exists [], l. simpl. auto.
    + destruct (focus_refused (element info) cur pg Ht Ha Hi) as [A [C I]].
      rewrite I.
      specialize (IH (focus true (element info) pg) A Hl).
      destruct (find takes l) as [found |].
      * destruct IH as [pre [post [E [Hpre [F [A' C']]]]]].
        exists (info :: pre), post. subst l.
        repeat split; auto.
        rewrite C', C. cbn [app focusCalls map].
        rewrite <- app_assoc. reflexivity.
      * destruct IH as [F [A' C']].
        repeat split; auto.
        rewrite C', C. cbn [focusCalls map].
        rewrite <- app_assoc. reflexivity.
Qed.

(** The selector of [src/arrow-nav.js].  In a navigation request with a
    focused element, the candidates are tried in ranked order, each by a
    focus call; the request stops at the first candidate that has become the
    active element, and scrolls it into view.  When no candidate takes the
    focus, every one has been tried, the active element is the one it was,
    and nothing is scrolled. *)
Theorem moveFocus_tries_in_ranked_order :
  forall (moveAngle : JsValue) (pg : Page) (cur : Element),
    activeElement pg = Some cur ->
    let focusableElements := fst (getFocusableElements pg) in
    let ranked :=
      rankedCandidates moveAngle cur focusableElements
        (snd (getFocusableElements pg)) in
    let pg' := moveFocus moveAngle pg in
    match find takes ranked with
    | Some info =>
        exists pre post,
          ranked = pre ++ info :: post /\
          Forall (fun i => takes i = false) pre /\
          activeElement pg' = Some (element info) /\
          calls pg' =
            calls pg ++ [QuerySelectorAll] ++ focusCalls (pre ++ [info])
              ++ [ScrollIntoView (ident (element info))]
    | None =>
        activeElement pg' = activeElement pg /\
        calls pg' = calls pg ++ [QuerySelectorAll] ++ focusCalls ranked
    end.
Proof.
  intros moveAngle pg cur Ha focusableElements ranked pg'.
  subst pg' ranked focusableElements.
  unfold moveFocus, getFocusableElements. cbn [fst snd].
  set (l := filter _ (selectorMatches pg)).
  rewrite Ha.
  destruct l as [| first rest] eqn:El.
  - simpl. rewrite Ha. auto.
  - set (ranked := rankedCandidates moveAngle cur (first :: rest)
                     (call QuerySelectorAll pg)).
    pose proof (findFocus_walk cur ranked (call QuerySelectorAll pg) Ha
                  (rankedCandidates_isNot _ _ _ _)) as W.
    destruct (find takes ranked) as [info |].
    + destruct W as [pre [post [E [Hpre [F [A C]]]]]].
      exists pre, post.
      destruct (findFocus ranked (call QuerySelectorAll pg)) as [r p].
      cbn [fst snd] in F, A, C. subst r.
      repeat split; auto.
      cbn [scrollIntoView call calls]. rewrite C. cbn [call calls].
      rewrite <- !app_assoc. reflexivity.
    + destruct W as [F [A C]].
      destruct (findFocus ranked (call QuerySelectorAll pg)) as [r p].
      cbn [fst snd] in F, A, C. subst r.
      split; [congruence |].
      rewrite C. cbn [call calls]. rewrite <- !app_assoc. reflexivity.
Qed.
End FocusAttempts.

Section FocusAttemptsExample.

Lemma moveFocus_tries_in_ranked_order_witness :
  activeElement stubbornPage = Some current /\
  match
    find takes
      (rankedCandidates (keyToAngle "ArrowRight") current
         (fst (getFocusableElements stubbornPage))
         (snd (getFocusableElements stubbornPage)))
  with
  | Some info =>
      exists pre post,
        rankedCandidates (keyToAngle "ArrowRight") current
          (fst (getFocusableElements stubbornPage))
          (snd (getFocusableElements stubbornPage)) = pre ++ info :: post /\
        Forall (fun i => takes i = false) pre /\
        activeElement (moveFocus (keyToAngle "ArrowRight") stubbornPage)
          = Some (element info) /\
        calls (moveFocus (keyToAngle "ArrowRight") stubbornPage) =
          calls stubbornPage ++ [QuerySelectorAll] ++ focusCalls (pre ++ [info])
            ++ [ScrollIntoView (ident (element info))]
  | None =>
      activeElement (moveFocus (keyToAngle "ArrowRight") stubbornPage)
        = activeElement stubbornPage /\
      calls (moveFocus (keyToAngle "ArrowRight") stubbornPage) =
        calls stubbornPage ++ [QuerySelectorAll]
          ++ focusCalls
               (rankedCandidates (keyToAngle "ArrowRight") current
                  (fst (getFocusableElements stubbornPage))
                  (snd (getFocusableElements stubbornPage)))
  end.
Proof.
  split.
  - reflexivity.
  - exact (moveFocus_tries_in_ranked_order
             (keyToAngle "ArrowRight") stubbornPage current eq_refl).
Defined.

(** On [stubbornPage] the first-ranked candidate refuses the focus: both
    candidates are tried, the second one gets the focus and is scrolled into
    view. *)
Lemma moveFocus_stubbornPage :
  activeElement (moveFocus (keyToAngle "ArrowRight") stubbornPage) = Some level /\
  calls (moveFocus (keyToAngle "ArrowRight") stubbornPage) =
    [QuerySelectorAll; Focus 1 true; Focus 2 true; ScrollIntoView 2].
Proof.
  unfold moveFocus, getFocusableElements.
  change (filter _ (selectorMatches stubbornPage))
    with [current; lowerElement false; level].
  change (activeElement stubbornPage) with (Some current).
  cbv iota beta.
  rewrite rankedCandidates_rankingPage.
  split; reflexivity.
Qed.
End FocusAttemptsExample.

(** ** The input handler *)

Section Throttle.
Local Open Scope Z_scope.

Lemma selectorRuns_call (c : Call) (pg : Page) :
  selectorRuns (call c pg)
  = (selectorRuns pg + (if isQuery c then 1 else 0))%nat.
Proof.
  unfold selectorRuns, call. cbn [calls].
  rewrite filter_app, length_app. cbn [filter].
  destruct (isQuery c); reflexivity.
Qed.

Lemma historyBacks_call (c : Call) (pg : Page) :
  historyBacks (call c pg)
  = (historyBacks pg + (if isBack c then 1 else 0))%nat.
Proof.
  unfold historyBacks, call. cbn [calls].
  rewrite filter_app, length_app. cbn [filter].
  destruct (isBack c); reflexivity.
Qed.

Lemma calls_focus (b : bool) (e : Element) (pg : Page) :
  calls (focus b e pg) = calls pg ++ [Focus (ident e) b].
Proof. unfold focus. destruct (takesFocus e); reflexivity. Qed.

Lemma calls_findFocus (l : list Info) :
  forall pg : Page,
  exists pre : list Info,
    calls (snd (findFocus l pg)) = calls pg ++ focusCalls pre.
Proof.
  induction l as [| info l IH]; intros pg; cbn [findFocus].
  - exists []. cbn. now rewrite app_nil_r.
  - destruct (isElement _ _).
    + exists [info]. cbn [snd]. apply calls_focus.
    + destruct (IH (focus true (element info) pg)) as [pre E].
      exists (info :: pre). rewrite E, calls_focus.
      rewrite <- app_assoc. reflexivity.
Qed.

(** What a run of [moveFocus] adds to the calls: the query, then focus calls,
    then at most one scroll. *)
Lemma calls_moveFocus (moveAngle : JsValue) (pg : Page) :
  exists added : list Call,
    calls (moveFocus moveAngle pg) = calls pg ++ QuerySelectorAll :: added /\
    Forall (fun c => isQuery c = false /\ isBack c = false) added.
Proof.
  unfold moveFocus, getFocusableElements.
  destruct (filter _ (selectorMatches pg)) as [| first rest].
  - exists []. split; [reflexivity | constructor].
  - destruct (activeElement pg) as [cur |].
    + set (ranked := rankedCandidates _ _ _ _).
      destruct (calls_findFocus ranked (call QuerySelectorAll pg)) as [pre E].
      assert (Hpre : Forall (fun c => isQuery c = false /\ isBack c = false)
                       (focusCalls pre)).
      { apply Forall_forall. intros c Hc. apply in_map_iff in Hc.
        destruct Hc as [i [<- _]]. split; reflexivity. }
      destruct (findFocus ranked (call QuerySelectorAll pg)) as [[f |] p];
        cbn [snd] in E.
      * exists (focusCalls pre ++ [ScrollIntoView (ident (element f))]).
        split.
        -- cbn [scrollIntoView call calls]. rewrite E. cbn [call calls].
           rewrite <- !app_assoc. reflexivity.
        -- apply Forall_app. split; [exact Hpre |].
           constructor; [split; reflexivity | constructor].
      * exists (focusCalls pre). split; [| exact Hpre].
        rewrite E. cbn [call calls]. rewrite <- !app_assoc. reflexivity.
    + exists [Focus (ident first) false]. split.
      * rewrite calls_focus. cbn [call calls].
        rewrite <- !app_assoc. reflexivity.
      * constructor; [split; reflexivity | constructor].
Qed.

Lemma filter_none {A : Type} (f : A -> bool) (l : list A) :
  Forall (fun a => f a = false) l -> filter f l = [].
Proof.
  induction 1 as [| a l Ha _ IH]; cbn [filter]; [reflexivity |].
  now rewrite Ha.
Qed.

(** Each run of [moveFocus] is one more run of the selector. *)
Lemma selectorRuns_moveFocus (moveAngle : JsValue) (pg : Page) :
  selectorRuns (moveFocus moveAngle pg) = S (selectorRuns pg).
Proof.
  destruct (calls_moveFocus moveAngle pg) as [added [E Hadd]].
  unfold selectorRuns. rewrite E, filter_app, length_app. cbn [filter isQuery].
  rewrite (filter_none isQuery added).
  - cbn [List.length]. lia.
  - eapply Forall_impl; [| exact Hadd]. intros c [H _]. exact H.
Qed.

Lemma historyBacks_moveFocus (moveAngle : JsValue) (pg : Page) :
  historyBacks (moveFocus moveAngle pg) = historyBacks pg.
Proof.
  destruct (calls_moveFocus moveAngle pg) as [added [E Hadd]].
  unfold historyBacks. rewrite E, filter_app, length_app. cbn [filter isBack].
  rewrite (filter_none isBack added).
  - cbn [List.length]. lia.
  - eapply Forall_impl; [| exact Hadd]. intros c [_ H]. exact H.
Qed.

(** The keydown listener does not tell the keys apart: [keyToAngle] never
    returns [null]. *)
Lemma keyToAngle_not_null (k : string) : strictNotNull (keyToAngle k) = true.
Proof.
  unfold keyToAngle.
  repeat match goal with
         | |- context [if ?c then _ else _] => destruct c
         end; reflexivity.
Qed.

Lemma keydown_eq (k : string) (now now' : Z) (st : State) :
  keydown k now now' st =
  if now - lastEventTime st >? 100
  then {| page := call StopImmediatePropagation
                    (call PreventDefault (moveFocus (keyToAngle k) (page st)));
          lastEventTime := now' |}
  else {| page := call StopImmediatePropagation
                    (call PreventDefault (page st));
          lastEventTime := lastEventTime st |}.
Proof.
  unfold keydown. rewrite keyToAngle_not_null.
  destruct (now - lastEventTime st >? 100); reflexivity.
Qed.

Lemma keyup_eq (k : string) (st : State) :
  keyup k st = {| page := call PreventDefault (page st); lastEventTime := 0 |}.
Proof. unfold keyup. rewrite keyToAngle_not_null. reflexivity. Qed.

Lemma selectorRuns_keydown (k : string) (now now' : Z) (st : State) :
  selectorRuns (page (keydown k now now' st))
  = (selectorRuns (page st) + (if now - lastEventTime st >? 100 then 1 else 0))%nat.
Proof.
  rewrite keydown_eq.
  destruct (now - lastEventTime st >? 100); cbn [page];
    rewrite !selectorRuns_call; cbn [isQuery];
    rewrite ?selectorRuns_moveFocus; lia.
Qed.

Lemma lastEventTime_keydown (k : string) (now now' : Z) (st : State) :
  lastEventTime (keydown k now now' st)
  = if now - lastEventTime st >? 100 then now' else lastEventTime st.
Proof.
  rewrite keydown_eq. destruct (now - lastEventTime st >? 100); reflexivity.
Qed.

(** The default handling of a key-down is suppressed last, throttled or not. *)
Lemma calls_keydown (k : string) (now now' : Z) (st : State) :
  exists added : list Call,
    calls (page (keydown k now now' st))
    = calls (page st) ++ added ++ [PreventDefault; StopImmediatePropagation].
Proof.
  rewrite keydown_eq. destruct (now - lastEventTime st >? 100); cbn [page].
  - destruct (calls_moveFocus (keyToAngle k) (page st)) as [added [E _]].
    exists (QuerySelectorAll :: added). cbn [call calls]. rewrite E.
    rewrite <- !app_assoc. reflexivity.
  - exists []. cbn [call calls]. rewrite <- !app_assoc. reflexivity.
Qed.

(** In a sequence of key-downs, the selector runs only at times more than
    100ms after the time recorded before the sequence, and more than 100ms
    apart from one another. *)
Lemma navigationTimes_spaced (events : list KeyDown) :
  Forall (fun e => time e <= timeAfter e) events ->
  forall st : State,
    Forall (fun t => lastEventTime st + 100 < t) (navigationTimes events st) /\
    StronglySorted (fun t u => t + 100 < u) (navigationTimes events st).
Proof.
  induction 1 as [| e events He _ IH]; intros st; cbn [navigationTimes].
  - split; constructor.
  - destruct (IH (onKeyDown e st)) as [Hf Hs].
    unfold onKeyDown in *.
    rewrite selectorRuns_keydown.
    rewrite lastEventTime_keydown in Hf.
    destruct (time e - lastEventTime st >? 100) eqn:E.
    + apply Z.gtb_lt in E.
      replace (selectorRuns (page st) <? selectorRuns (page st) + 1)%nat
        with true by (symmetry; apply Nat.ltb_lt; lia).
      cbn [app]. split.
      * constructor; [lia |].
        eapply Forall_impl; [| exact Hf]. cbn beta. intros; lia.
      * constructor; [exact Hs |].
        eapply Forall_impl; [| exact Hf]. cbn beta. intros; lia.
    + replace (selectorRuns (page st) <? selectorRuns (page st) + 0)%nat
        with false by (symmetry; apply Nat.ltb_ge; lia).
      cbn [app]. split; assumption.
Qed.
End Throttle.

Section ThrottleClaims.
Local Open Scope Z_scope.

(** C4.  A key-down of a navigation key runs the selector exactly when more
    than 100ms have passed since the recorded time, which is then set to the
    time of this navigation; throttled or not, the default handling of the
    key-down is suppressed.  So in a sequence of key-downs without key-up
    the selector runs at times more than 100ms apart.  A key-up of a
    navigation key sets the recorded time to 0, and the next key-down runs
    the selector. *)
Theorem keydown_throttled_keyup_resets :
  (forall (k : string) (now now' : Z) (st : State),
      navigationKey k ->
      let st' := keydown k now now' st in
      (selectorRuns (page st') = S (selectorRuns (page st))
       <-> now - lastEventTime st > 100) /\
      (now - lastEventTime st > 100 -> lastEventTime st' = now') /\
      (now - lastEventTime st <= 100 ->
       selectorRuns (page st') = selectorRuns (page st) /\
       activeElement (page st') = activeElement (page st) /\
       lastEventTime st' = lastEventTime st) /\
      (exists added : list Call,
          calls (page st')
          = calls (page st) ++ added ++ [PreventDefault; StopImmediatePropagation])) /\
  (forall (events : list KeyDown) (st : State),
      Forall (fun e => navigationKey (key e)) events ->
      Forall (fun e => time e <= timeAfter e) events ->
      StronglySorted (fun t u => t + 100 < u) (navigationTimes events st)) /\
  (forall (k k' : string) (now now' : Z) (st : State),
      navigationKey k -> navigationKey k' -> 100 < now ->
      lastEventTime (keyup k st) = 0 /\
      selectorRuns (page (keydown k' now now' (keyup k st)))
      = S (selectorRuns (page (keyup k st)))).
Proof.
  split; [| split].
  - intros k now now' st _ st'. subst st'.
    rewrite selectorRuns_keydown, lastEventTime_keydown.
    destruct (now - lastEventTime st >? 100) eqn:E.
    + apply Z.gtb_lt in E. repeat split; try lia.
      apply calls_keydown.
    + assert (now - lastEventTime st <= 100).
      { destruct (Z.gtb_spec (now - lastEventTime st) 100); [discriminate | lia]. }
      repeat split; try lia.
      * rewrite keydown_eq, E. reflexivity.
      * apply calls_keydown.
  - intros events st _ Ht. now apply navigationTimes_spaced.
  - intros k k' now now' st _ _ Hnow.
    rewrite selectorRuns_keydown, keyup_eq. cbn [lastEventTime].
    split; [reflexivity |].
    replace (now - 0 >? 100) with true by (symmetry; apply Z.gtb_lt; lia).
    lia.
Qed.

Lemma navigationKey_ArrowDown : navigationKey "ArrowDown".
Proof. exists (PI / 2)%R. reflexivity. Qed.

Lemma keydown_throttled_keyup_resets_witness :
  (selectorRuns (page (keydown "ArrowDown" 1000 1000 (initialState emptyPage)))
   = S (selectorRuns emptyPage) <-> 1000 - 0 > 100) /\
  StronglySorted (fun t u => t + 100 < u)
    (navigationTimes (repeated "ArrowDown" 1000 26) (initialState emptyPage)) /\
  selectorRuns
    (page (keydown "ArrowDown" 1010 1010
             (keyup "ArrowDown"
                (keydown "ArrowDown" 1000 1000 (initialState emptyPage)))))
  = S (selectorRuns
         (page (keyup "ArrowDown"
                  (keydown "ArrowDown" 1000 1000 (initialState emptyPage))))).
Proof.
  split; [| split].
  - exact (proj1 (proj1 keydown_throttled_keyup_resets
                    "ArrowDown"%string 1000 1000 (initialState emptyPage)
                    navigationKey_ArrowDown)).
  - apply (proj1 (proj2 keydown_throttled_keyup_resets)).
    + repeat constructor; apply navigationKey_ArrowDown.
    + repeat constructor; cbn; lia.
  - apply (proj2 (proj2 keydown_throttled_keyup_resets)
             "ArrowDown"%string "ArrowDown"%string 1010 1010
             (keydown "ArrowDown" 1000 1000 (initialState emptyPage))
             navigationKey_ArrowDown navigationKey_ArrowDown).
    lia.
Defined.

(** The scenario of the specification: of 26 key-downs 10ms apart, from 1000
    to 1250, three run the selector. *)
Lemma navigationTimes_repeated :
  navigationTimes (repeated "ArrowDown" 1000 26) (initialState emptyPage)
  = [1000; 1110; 1220].
Proof. reflexivity. Qed.

(** With a key-up after each key-down, every key-down runs the selector. *)
Lemma keyup_between_keydowns :
  let st1 := keydown "ArrowDown" 1000 1000 (initialState emptyPage) in
  let st2 := keydown "ArrowDown" 1010 1010 (keyup "ArrowDown" st1) in
  selectorRuns (page st1) = 1%nat /\ selectorRuns (page st2) = 2%nat.
Proof. split; reflexivity. Qed.
End ThrottleClaims.

(** ** Keys that are not navigation keys *)

Section OtherKeys.
Local Open Scope Z_scope.

Lemma inDirection_undefined (info : Info) : inDirection JsUndefined info = false.
Proof. reflexivity. Qed.

(** With [undefined] for the angle no candidate passes the direction
    filter. *)
Lemma rankedCandidates_undefined (cur : Element) (l : list Element) (pg : Page) :
  rankedCandidates JsUndefined cur l pg = [].
Proof.
  unfold rankedCandidates.
  rewrite (filter_none (inDirection JsUndefined)); [reflexivity |].
  apply Forall_forall. intros; apply inDirection_undefined.
Qed.

(** C9, on the listener as it is.  [keyToAngle "Backspace"] is [undefined],
    which is not [null]: a Backspace key-down takes the branch of the
    navigation keys, throttle included, and never reaches [history.back()]. *)
Theorem keydown_Backspace_no_history_back :
  keyToAngle "Backspace" = JsUndefined /\
  (forall (now now' : Z) (st : State),
      historyBacks (page (keydown "Backspace" now now' st))
      = historyBacks (page st) /\
      selectorRuns (page (keydown "Backspace" now now' st))
      = (selectorRuns (page st)
         + (if now - lastEventTime st >? 100 then 1 else 0))%nat) /\
  (let st' := keydown "Backspace" 1000 1001 (initialState rankingPage) in
   calls (page st')
   = [QuerySelectorAll; PreventDefault; StopImmediatePropagation] /\
   lastEventTime st' = 1001).
Proof.
  split; [reflexivity |]. split.
  - intros now now' st. split; [| apply selectorRuns_keydown].
    rewrite keydown_eq.
    destruct (now - lastEventTime st >? 100); cbn [page];
      rewrite !historyBacks_call; cbn [isBack];
      rewrite ?historyBacks_moveFocus; lia.
  - cbv zeta. rewrite keydown_eq.
    change (1000 - lastEventTime (initialState rankingPage) >? 100) with true.
    cbv iota. cbn [page lastEventTime initialState].
    change (keyToAngle "Backspace") with JsUndefined.
    unfold moveFocus, getFocusableElements.
    change (filter _ (selectorMatches rankingPage)) with [current; lower; level].
    change (activeElement rankingPage) with (Some current).
    cbv iota beta. rewrite rankedCandidates_undefined.
    split; reflexivity.
Qed.

(** C10, on the listener as it is.  ["x"] is not a navigation key and not
    Backspace, and its key-down is handled like that of a navigation key:
    the selector runs, the time is recorded, default handling and
    propagation are suppressed; when no element holds the focus, the first
    focusable element gets it. *)
Theorem keydown_other_key_is_handled :
  keyToAngle "x" = JsUndefined /\
  (let st' := keydown "x" 1000 1001 (initialState rankingPage) in
   calls (page st')
   = [QuerySelectorAll; PreventDefault; StopImmediatePropagation] /\
   lastEventTime (initialState rankingPage) = 0 /\
   lastEventTime st' = 1001) /\
  (let st' := keydown "x" 1000 1001 (initialState unfocusedPage) in
   activeElement unfocusedPage = None /\
   activeElement (page st') = Some current /\
   calls (page st')
   = [QuerySelectorAll; Focus 0 false; PreventDefault; StopImmediatePropagation]).
Proof.
  split; [reflexivity |]. split.
  - cbv zeta. rewrite keydown_eq.
    change (1000 - lastEventTime (initialState rankingPage) >? 100) with true.
    cbv iota. cbn [page lastEventTime initialState].
    change (keyToAngle "x") with JsUndefined.
    unfold moveFocus, getFocusableElements.
    change (filter _ (selectorMatches rankingPage)) with [current; lower; level].
    change (activeElement rankingPage) with (Some current).
    cbv iota beta. rewrite rankedCandidates_undefined.
    repeat split; reflexivity.
  - cbv zeta. repeat split; reflexivity.
Qed.
End OtherKeys.

(** ** The highlight animator *)

Section AnimatorFacts.
Local Open Scope R_scope.


Lemma lerp_1 (a b : R) : lerp a b 1 = b.
Proof. unfold lerp. ring. Qed.

Lemma easeOut_0 : easeOut 0 = 0.
Proof. unfold easeOut, Math.pow. simpl. ring. Qed.

Lemma easeOut_1 : easeOut 1 = 1.
Proof. unfold easeOut, Math.pow. simpl. ring. Qed.

Lemma cube_monotone (u v : R) : u <= v -> u ^ 3 <= v ^ 3.
Proof.
  intros H.
  assert (E : v ^ 3 - u ^ 3 = (v - u) * ((u + v / 2) ^ 2 + 3 / 4 * v ^ 2))
    by (simpl; field).
  assert (0 <= (u + v / 2) ^ 2) by apply pow2_ge_0.
  assert (0 <= v ^ 2) by apply pow2_ge_0.
  assert (0 <= (v - u) * ((u + v / 2) ^ 2 + 3 / 4 * v ^ 2))
    by (apply Rmult_le_pos; lra).
  lra.
Qed.

Lemma easeOut_monotone (p q : R) : p <= q -> easeOut p <= easeOut q.
Proof.
  intros H. unfold easeOut, Math.pow.
  assert ((1 - q) ^ 3 <= (1 - p) ^ 3) by (apply cube_monotone; lra).
  lra.
Qed.

(** The clamped progress of a frame. *)
Lemma progress_monotone (s t t0 : Z) :
  (s <= t)%Z ->
  Math.min 1 (IZR (s - t0) / animationTime)
  <= Math.min 1 (IZR (t - t0) / animationTime).
Proof.
  intros H. unfold Math.min, animationTime.
  assert (IZR (s - t0) <= IZR (t - t0)) by (apply IZR_le; lia).
  apply Rle_min_compat_l. lra.
Qed.

Lemma lerpPos_start (start : Z) : lerpPos start start = 0.
Proof.
  unfold lerpPos. rewrite Z.sub_diag.
  replace (Math.min 1 (0 / animationTime)) with 0.
  - apply easeOut_0.
  - unfold Math.min, animationTime, Rmin.
    destruct (Rle_dec 1 (0 / 300)); lra.
Qed.

Lemma lerpPos_settled (start now : Z) :
  (start + 300 <= now)%Z -> lerpPos now start = 1.
Proof.
  intros H. unfold lerpPos.
  replace (Math.min 1 (IZR (now - start) / animationTime)) with 1.
  - apply easeOut_1.
  - assert (300 <= IZR (now - start)) by (apply IZR_le; lia).
    unfold Math.min, animationTime. symmetry. apply Rmin_left. lra.
Qed.

Lemma lerpPos_monotone (start s t : Z) :
  (s <= t)%Z -> lerpPos s start <= lerpPos t start.
Proof.
  intros H. unfold lerpPos.
  apply easeOut_monotone. now apply progress_monotone.
Qed.
End AnimatorFacts.

Section AnimatorClaims.
Local Open Scope R_scope.

(** C7.  The blend factor of the animation is the cubic ease-out
    [1 - (1 - p)^3] of the clamped progress [p = min(1, (now - start) / 300)]:
    it is 0 at the start of the transition, 1 from 300ms after the start on,
    and it never decreases as time goes on. *)
Theorem lerpPos_eases_out :
  forall start : Z,
    lerpPos start start = 0 /\
    (forall now : Z, (start + 300 <= now)%Z -> lerpPos now start = 1) /\
    (forall s t : Z, (s <= t)%Z -> lerpPos s start <= lerpPos t start) /\
    (forall now : Z,
        lerpPos now start = 1 - (1 - Rmin 1 (IZR (now - start) / 300)) ^ 3).
Proof.
  intros start.
  split; [apply lerpPos_start |].
  split; [apply lerpPos_settled |].
  split; [intros s t; apply lerpPos_monotone |].
  intros now. reflexivity.
Qed.

Lemma lerpPos_eases_out_witness :
  lerpPos 1300 1000 = 1 /\ lerpPos 1100 1000 <= lerpPos 1200 1000.
Proof.
  split.
  - apply (proj1 (proj2 (lerpPos_eases_out 1000)) 1300%Z). lia.
  - apply (proj1 (proj2 (proj2 (lerpPos_eases_out 1000))) 1100%Z 1200%Z). lia.
Defined.

(** C8.  None of the four radii [getBorderRadius] computes for an element
    exceeds the larger of the width and the height of its bounding rect,
    whatever radius the element declares; for no element, all four are 0. *)
Theorem getBorderRadius_clamped :
  (forall element : Element,
      let radius := getBorderRadius (Some element) in
      let bound :=
        Rmax (DOMRect.width (boundingClientRect element))
             (DOMRect.height (boundingClientRect element)) in
      topLeft radius <= bound /\ topRight radius <= bound /\
      bottomLeft radius <= bound /\ bottomRight radius <= bound) /\
  getBorderRadius None =
  {| topLeft := 0; topRight := 0; bottomLeft := 0; bottomRight := 0 |}.
Proof.
  split; [| reflexivity].
  intros element radius bound. subst radius bound.
  cbn [getBorderRadius topLeft topRight bottomLeft bottomRight].
  unfold Math.min, Math.max.
  rewrite (Rmax_comm (DOMRect.width _)).
  repeat split; apply Rmin_l.
Qed.

(** The radii of [pill], which declares 9999px on a box of 100 by 40. *)
Lemma getBorderRadius_pill :
  getBorderRadius (Some pill) =
  {| topLeft := 100; topRight := 100; bottomLeft := 100; bottomRight := 100 |}.
Proof.
  unfold getBorderRadius, pill, Math.min, Math.max. cbn.
  assert (E : Rmax 40 100 = 100) by (apply Rmax_right; lra).
  rewrite E.
  assert (E' : Rmin 100 (100 / 100 * 9999) = 100) by (apply Rmin_left; lra).
  rewrite E'. reflexivity.
Qed.

(** The overlay of a frame drawn 300ms or more after the target changed sits
    on the target. *)
Lemma loop_settled (screenWidth screenHeight : R) (active : option Element)
    (now0 now : Z) (h : Highlighter) :
  differs (targetElement h) active = false ->
  (targetChangeTime h + 300 <= now)%Z ->
  let '(h', style) := loop screenWidth screenHeight active now0 now h in
  h' = h /\
  Style.left style = DOMRect.x (getRect screenWidth screenHeight (targetElement h)) /\
  Style.top style = DOMRect.y (getRect screenWidth screenHeight (targetElement h)) /\
  Style.width style
  = DOMRect.width (getRect screenWidth screenHeight (targetElement h)) /\
  Style.height style
  = DOMRect.height (getRect screenWidth screenHeight (targetElement h)) /\
  Style.borderTopLeftRadius style = topLeft (getBorderRadius (targetElement h)).
Proof.
  intros Hd Ht. unfold loop. rewrite Hd.
  rewrite (lerpPos_settled _ _ Ht).
  cbn. rewrite !lerp_1. repeat split; reflexivity.
Qed.
End AnimatorClaims.

(** ** The older variant *)

Section OlderVariant.
Local Open Scope R_scope.

(** Its keydown listener does go back in the history on Backspace, whatever
    the recorded time. *)
Lemma Part000_keydown_Backspace (now now' : Z) (st : State) :
  Part000.keydown "Backspace" now now' st =
  {| page := call PreventDefault (call HistoryBack (page st));
     lastEventTime := lastEventTime st |}.
Proof. reflexivity. Qed.

(** Its keydown listener leaves every other key alone. *)
Lemma Part000_keydown_other (k : string) (now now' : Z) (st : State) :
  Part000.directionOfKey k = None -> k <> "Backspace"%string ->
  Part000.keydown k now now' st = st.
Proof.
  intros Hk Hb. unfold Part000.keydown. rewrite Hk.
  apply String.eqb_neq in Hb. rewrite Hb. reflexivity.
Qed.

(** Its listeners throttle the four arrow keys the same way. *)
Lemma Part000_keydown_arrow (k : string) (direction : Part000.Direction)
    (now now' : Z) (st : State) :
  Part000.directionOfKey k = Some direction ->
  Part000.keydown k now now' st =
  if (now - lastEventTime st >? 100)%Z
  then {| page := call PreventDefault (Part000.moveFocus direction (page st));
          lastEventTime := now' |}
  else {| page := call PreventDefault (page st);
          lastEventTime := lastEventTime st |}.
Proof.
  intros Hk. unfold Part000.keydown. rewrite Hk.
  destruct (now - lastEventTime st >? 100)%Z; reflexivity.
Qed.

Lemma Part000_keyup_arrow (k : string) (direction : Part000.Direction)
    (st : State) :
  Part000.directionOfKey k = Some direction ->
  lastEventTime (Part000.keyup k st) = 0%Z.
Proof. intros Hk. unfold Part000.keyup. rewrite Hk. reflexivity. Qed.

(** Its selector makes one focus call at most, and does not look at the
    outcome. *)
Lemma Part000_moveFocus_calls (direction : Part000.Direction) (pg : Page) :
  exists added : list Call,
    calls (Part000.moveFocus direction pg)
    = calls pg ++ QuerySelectorAll :: added /\
    (added = [] \/
     (exists n, added = [Focus n false]) \/
     (exists n, added = [Focus n false; ScrollIntoView n])).
Proof.
  unfold Part000.moveFocus, getFocusableElements.
  destruct (filter _ (selectorMatches pg)) as [| first rest].
  - exists []. split; [reflexivity | auto].
  - destruct (activeElement pg) as [cur |].
    + destruct (Part000.target _) as [t |].
      * exists [Focus (ident t) false; ScrollIntoView (ident t)].
        split; [| eauto].
        cbn [scrollIntoView call calls]. rewrite calls_focus.
        cbn [call calls]. rewrite <- !app_assoc. reflexivity.
      * exists []. split; [reflexivity | auto].
    + exists [Focus (ident first) false]. split; [| eauto].
      rewrite calls_focus. cbn [call calls].
      rewrite <- !app_assoc. reflexivity.
Qed.
End OlderVariant.

Section OlderVariantAlignment.
Local Open Scope R_scope.

Lemma diff_diagonal :
  getRectDiff currentRect (boundingClientRect diagonal) =
  {| distance := Math.hypot (-101) (-201); areAligned := false;
     midAngle := Math.atan2 201 101; minAngle := Math.atan2 201 101 |}.
Proof.
  change (getRectDiff currentRect (boundingClientRect diagonal))
    with (getRectDiff (DOMRect.mk 0 0 100 100) (DOMRect.mk 101 201 100 100)).
  rewrite getRectDiff_unaligned.
  - unfold getAngle, getMiddle. simpl. edges.
    f_equal; f_equal; lra.
  - unfold overlapOnX. edges. lra.
  - unfold overlapOnY. edges. lra.
Qed.

Lemma diff_below :
  getRectDiff currentRect (boundingClientRect below) =
  {| distance := 300; areAligned := true;
     midAngle := Math.atan2 400 0; minAngle := PI / 2 |}.
Proof.
  change (getRectDiff currentRect (boundingClientRect below))
    with (getRectDiff (DOMRect.mk 0 0 100 100) (DOMRect.mk 0 400 100 100)).
  rewrite getRectDiff_vertical.
  - unfold getAngle, getMiddle. simpl. edges.
    f_equal.
    + rabs.
    + f_equal; lra.
    + rdecide; lra.
  - unfold overlapOnX. edges. lra.
  - unfold overlapOnY. edges. lra.
Qed.

(** [diagonal] lies within the cone of ArrowDown. *)
Lemma angle_diagonal : getAngleDiff (Math.atan2 201 101) (PI / 2) <= PI / 4.
Proof.
  pose proof PI_RGT_0 as Hpi.
  assert (Hm : PI / 4 < Math.atan2 201 101 < PI / 2).
  { unfold Math.atan2. destruct (Rlt_dec 0 101); [| lra].
    pose proof (atan_bound (201 / 101)).
    split; [| lra].
    rewrite <- atan_1. apply atan_increasing. lra. }
  set (m := Math.atan2 201 101) in *.
  unfold getAngleDiff, Math.abs.
  set (d := PI / 2 - m).
  assert (Hd : 0 < d < PI / 4) by (unfold d; lra).
  assert (Hc : 0 < cos d) by (apply cos_gt_0; lra).
  unfold Math.atan2. destruct (Rlt_dec 0 (cos d)); [| lra].
  change (sin d / cos d) with (tan d).
  rewrite atan_tan by lra.
  rewrite Rabs_pos_eq; lra.
Qed.

(** The distance between the middles of [current] and [diagonal] is less
    than 295. *)
Lemma distance_diagonal : Math.hypot (-101) (-201) < 295.
Proof.
  unfold Math.hypot.
  replace 295 with (sqrt (295 * 295)) by (apply sqrt_square; lra).
  apply sqrt_lt_1; lra.
Qed.

Lemma visit_diagonal (pg : Page) :
  innerWidth pg = 1000 -> innerHeight pg = 800 ->
  Part000.visit pg currentRect current (PI / 2) Part000.noBest diagonal =
  {| Part000.target := Some diagonal;
     Part000.minDistance := Part000.Real (Math.hypot (-101) (-201));
     Part000.minAngleDiff :=
       Part000.Real (getAngleDiff (Math.atan2 201 101) (PI / 2));
     Part000.minIsAligned := false |}.
Proof.
  intros Hw Hh. unfold Part000.visit.
  change (sameElement diagonal current) with false. cbv iota.
  rewrite diff_diagonal. cbn [minAngle areAligned midAngle distance].
  destruct (Rgtb_false (getAngleDiff (Math.atan2 201 101) (PI / 2)) (PI / 4))
    as [_ E].
  rewrite E by apply angle_diagonal.
  rewrite Hw, Hh.
  change (boundingClientRect diagonal) with (DOMRect.mk 101 201 100 100).
  edges.
  destruct (Rltb_false (101 + 100) (- (1000) * (2 / 10))) as [_ E1].
  rewrite E1 by lra.
  destruct (Rgtb_false 101 (1000 * (1 + 2 / 10))) as [_ E2].
  rewrite E2 by lra.
  destruct (Rltb_false (201 + 100) (- (800) * (2 / 10))) as [_ E3].
  rewrite E3 by lra.
  destruct (Rgtb_false 201 (800 * (1 + 2 / 10))) as [_ E4].
  rewrite E4 by lra.
  reflexivity.
Qed.

Lemma visit_below (pg : Page) (a : R) :
  let best :=
    {| Part000.target := Some diagonal;
       Part000.minDistance := Part000.Real (Math.hypot (-101) (-201));
       Part000.minAngleDiff := Part000.Real a;
       Part000.minIsAligned := false |} in
  Part000.visit pg currentRect current (PI / 2) best below = best.
Proof.
  intros best. subst best. unfold Part000.visit.
  change (sameElement below current) with false. cbv iota.
  rewrite diff_below. cbn [minAngle areAligned midAngle distance].
  rewrite getAngleDiff_diag.
  destruct (Rgtb_false 0 (PI / 4)) as [_ E].
  rewrite E by (pose proof PI_RGT_0; lra).
  cbn [negb andb Part000.minIsAligned Part000.isAligned Part000.minDistance
       Part000.ltExt Part000.leExtPlus].
  pose proof distance_diagonal as Hd.
  destruct (Rltb_false 300 (Math.hypot (-101) (-201))) as [_ E1].
  rewrite E1 by lra.
  destruct (Rleb_false 300 (Math.hypot (-101) (-201) + 5)) as [_ E2].
  rewrite E2 by lra.
  reflexivity.
Qed.

(** The older selector on [alignmentPage] with ArrowDown: [below] is aligned
    with the focused element and [diagonal] is not, and the focus goes to
    [diagonal].  The test meant to let an aligned candidate replace a
    non-aligned best one reads [diff.isAligned], which is never set. *)
Lemma Part000_aligned_candidate_passed_over :
  areAligned (getRectDiff (boundingClientRect current) (boundingClientRect diagonal))
  = false /\
  areAligned (getRectDiff (boundingClientRect current) (boundingClientRect below))
  = true /\
  activeElement (Part000.moveFocus Part000.ArrowDown alignmentPage)
  = Some diagonal.
Proof.
  fold currentRect. rewrite diff_diagonal, diff_below.
  split; [reflexivity |]. split; [reflexivity |].
  unfold Part000.moveFocus, getFocusableElements.
  change (filter _ (selectorMatches alignmentPage))
    with [current; diagonal; below].
  change (activeElement alignmentPage) with (Some current).
  cbv iota beta. fold currentRect.
  cbn [fold_left Part000.dirToAngle].
  assert (E0 : forall pg w b, Part000.visit pg currentRect current w b current = b).
  { intros. unfold Part000.visit.
    change (sameElement current current) with true. reflexivity. }
  rewrite E0.
  rewrite visit_diagonal by reflexivity.
  rewrite (visit_below _ _).
  reflexivity.
Qed.
End OlderVariantAlignment.


(** ** The older variant does not try a second candidate *)

Section OlderVariantAttempts.
Local Open Scope R_scope.

Lemma visit_lower (pg : Page) :
  Part000.visit pg currentRect current 0 Part000.noBest lower =
  {| Part000.target := Some lower;
     Part000.minDistance := Part000.Real 50;
     Part000.minAngleDiff := Part000.Real (getAngleDiff (Math.atan2 100 150) 0);
     Part000.minIsAligned := true |}.
Proof.
  unfold Part000.visit.
  change (sameElement lower current) with false. cbv iota.
  change (getRectDiff currentRect (boundingClientRect lower))
    with (diff (infoOf currentRect (lowerElement true))).
  rewrite diff_lower. cbn [minAngle areAligned midAngle distance].
  rewrite getAngleDiff_diag.
  destruct (Rgtb_false 0 (PI / 4)) as [_ E].
  rewrite E by (pose proof PI_RGT_0; lra).
  reflexivity.
Qed.

Lemma visit_refusingLevel (pg : Page) (a : R) :
  0 < a ->
  Part000.target
    (Part000.visit pg currentRect current 0
       {| Part000.target := Some lower;
          Part000.minDistance := Part000.Real 50;
          Part000.minAngleDiff := Part000.Real a;
          Part000.minIsAligned := true |}
       refusingLevel)
  = Some refusingLevel.
Proof.
  intros Ha. unfold Part000.visit.
  change (sameElement refusingLevel current) with false. cbv iota.
  change (getRectDiff currentRect (boundingClientRect refusingLevel))
    with (diff (infoOf currentRect level)).
  rewrite diff_level. cbn [minAngle areAligned midAngle distance].
  rewrite getAngleDiff_diag.
  destruct (Rgtb_false 0 (PI / 4)) as [_ E].
  rewrite E by (pose proof PI_RGT_0; lra).
  rewrite angle_level.
  cbn [negb andb Part000.minIsAligned Part000.isAligned Part000.minDistance
       Part000.minAngleDiff Part000.ltExt Part000.leExtPlus].
  destruct (Rltb_false 50 50) as [_ E1]. rewrite E1 by lra.
  destruct (Rleb_true 50 (50 + 5)) as [_ E2]. rewrite E2 by lra.
  destruct (Rltb_true 0 a) as [_ E3]. rewrite E3 by exact Ha.
  reflexivity.
Qed.

Lemma rankedCandidates_refusingPage (pg : Page) :
  rankedCandidates (keyToAngle "ArrowRight") current
    [current; lower; refusingLevel] pg
  = [infoOf currentRect lower; infoOf currentRect refusingLevel].
Proof.
  assert (Dl : diff (infoOf currentRect lower) =
               {| distance := 50; areAligned := true;
                  midAngle := Math.atan2 100 150; minAngle := 0 |})
    by apply (diff_lower true).
  assert (Dr : diff (infoOf currentRect refusingLevel) =
               {| distance := 50; areAligned := true;
                  midAngle := Math.atan2 0 150; minAngle := 0 |})
    by apply diff_level.
  unfold rankedCandidates. fold currentRect.
  change (filter (fun el => negb (sameElement el current))
            [current; lower; refusingLevel])
    with [lower; refusingLevel].
  change (filter visible [lower; refusingLevel]) with [lower; refusingLevel].
  cbn [map filter].
  rewrite !inDirection_right by (rewrite ?Dl, ?Dr; reflexivity).
  cbn [filter]. unfold onScreenOrAligned.
  rewrite Dl, Dr. cbn [areAligned filter sort insert].
  rewrite compareInfo_same_key by (rewrite Dl, Dr; reflexivity).
  reflexivity.
Qed.

(** C3, on the selector of [src/unnamed/part_000].  Every request of the
    older selector makes one focus call at most.  On [refusingPage] with
    ArrowRight it calls [focus] on [refusingLevel], which does not take the
    focus, and then scrolls to it all the same: the focus stays on [current],
    and [lower], a candidate that takes the focus, is not tried.  The
    selector of [src/arrow-nav.js] moves the focus to [lower] on the same
    page. *)
Theorem Part000_moveFocus_does_not_retry :
  (forall (direction : Part000.Direction) (pg : Page),
      exists added : list Call,
        calls (Part000.moveFocus direction pg)
        = calls pg ++ QuerySelectorAll :: added /\
        (added = [] \/
         (exists n, added = [Focus n false]) \/
         (exists n, added = [Focus n false; ScrollIntoView n]))) /\
  (let pg' := Part000.moveFocus Part000.ArrowRight refusingPage in
   calls pg' = [QuerySelectorAll; Focus 2 false; ScrollIntoView 2] /\
   activeElement pg' = Some current /\
   takesFocus refusingLevel = false /\
   takesFocus lower = true) /\
  (let pg' := moveFocus (keyToAngle "ArrowRight") refusingPage in
   calls pg' = [QuerySelectorAll; Focus 1 true; ScrollIntoView 1] /\
   activeElement pg' = Some lower).
Proof.
  split; [exact Part000_moveFocus_calls |]. split.
  - cbv zeta. unfold Part000.moveFocus, getFocusableElements.
    change (filter _ (selectorMatches refusingPage))
      with [current; lower; refusingLevel].
    change (activeElement refusingPage) with (Some current).
    cbv iota beta. fold currentRect.
    cbn [fold_left Part000.dirToAngle].
    assert (E0 : forall pg w b, Part000.visit pg currentRect current w b current = b).
    { intros. unfold Part000.visit.
      change (sameElement current current) with true. reflexivity. }
    rewrite E0, visit_lower.
    rewrite visit_refusingLevel by apply angle_lower.
    repeat split; reflexivity.
  - cbv zeta. unfold moveFocus, getFocusableElements.
    change (filter _ (selectorMatches refusingPage))
      with [current; lower; refusingLevel].
    change (activeElement refusingPage) with (Some current).
    cbv iota beta.
    rewrite rankedCandidates_refusingPage.
    split; reflexivity.
Qed.
End OlderVariantAttempts.

(* ================================================================== *)
(** * Part III: further properties of the program *)
(* ================================================================== *)

(** ** The angular distance is the shortest way round *)

(** Decide the tests of [Math.atan2] at hand. *)
Ltac atan2_cases :=
  unfold Math.atan2;
  repeat match goal with
         | |- context [Rlt_dec ?a ?b] => destruct (Rlt_dec a b)
         | |- context [Rle_dec ?a ?b] => destruct (Rle_dec a b)
         end;
  try lra.

Section ShortestAngle.
Local Open Scope R_scope.

Lemma tan_shift_PI (d : R) : cos d <> 0 -> sin d / cos d = tan (d - PI).
Proof.
  intros Hc. unfold tan.
  assert (Hs : sin (d - PI) = - sin d).
  { unfold Rminus. rewrite sin_plus, sin_neg, cos_neg, sin_PI, cos_PI. ring. }
  assert (Hc' : cos (d - PI) = - cos d).
  { unfold Rminus. rewrite cos_plus, sin_neg, cos_neg, sin_PI, cos_PI. ring. }
  rewrite Hs, Hc'. field. exact Hc.
Qed.

Lemma tan_shift_PI' (d : R) : cos d <> 0 -> sin d / cos d = tan (d + PI).
Proof.
  intros Hc. unfold tan. rewrite neg_sin, neg_cos. field. exact Hc.
Qed.

(** [Math.atan2] gives back the angle of a point of the unit circle. *)
Lemma atan2_sin_cos (d : R) :
  - PI < d <= PI -> Math.atan2 (sin d) (cos d) = d.
Proof.
  intros [Hlo Hhi]. pose proof PI_RGT_0 as Hpi.
  destruct (Rlt_dec d (- (PI / 2))) as [H1 | H1].
  - (* third quadrant *)
    assert (Hc : cos d < 0).
    { rewrite <- cos_neg. apply cos_lt_0; lra. }
    assert (Hs : sin d < 0) by (apply sin_lt_0_var; lra).
    unfold Math.atan2.
    destruct (Rlt_dec 0 (cos d)); [lra |].
    destruct (Rlt_dec (cos d) 0); [| lra].
    destruct (Rle_dec 0 (sin d)); [lra |].
    rewrite tan_shift_PI' by lra. rewrite atan_tan by lra. lra.
  - destruct (Req_dec d (- (PI / 2))) as [H2 | H2].
    + subst d. rewrite sin_neg, cos_neg, sin_PI2, cos_PI2.
      atan2_cases.
    + destruct (Rlt_dec d (PI / 2)) as [H3 | H3].
      * assert (Hc : 0 < cos d) by (apply cos_gt_0; lra).
        unfold Math.atan2. destruct (Rlt_dec 0 (cos d)); [| lra].
        change (sin d / cos d) with (tan d). apply atan_tan. lra.
      * destruct (Req_dec d (PI / 2)) as [H4 | H4].
        -- subst d. rewrite sin_PI2, cos_PI2. atan2_cases.
        -- assert (Hc : cos d < 0) by (apply cos_lt_0; lra).
           assert (Hs : 0 <= sin d) by (apply sin_ge_0; lra).
           unfold Math.atan2.
           destruct (Rlt_dec 0 (cos d)); [lra |].
           destruct (Rlt_dec (cos d) 0); [| lra].
           destruct (Rle_dec 0 (sin d)); [| lra].
           rewrite tan_shift_PI by lra. rewrite atan_tan by lra. lra.
Qed.

Lemma getAngleDiff_plain (a b : R) :
  - PI <= b - a <= PI -> getAngleDiff a b = Rabs (b - a).
Proof.
  intros [Hlo Hhi]. pose proof PI_RGT_0 as Hpi.
  unfold getAngleDiff, Math.abs.
  destruct (Req_dec (b - a) (- PI)) as [E | E].
  - rewrite E, sin_neg, cos_neg, sin_PI, cos_PI.
    unfold Math.atan2.
    destruct (Rlt_dec 0 (-1)); [lra |].
    destruct (Rlt_dec (-1) 0); [| lra].
    destruct (Rle_dec 0 (- 0)); [| lra].
    replace (- 0 / -1) with 0 by field. rewrite atan_0.
    rewrite Rabs_Ropp. f_equal. lra.
  - rewrite atan2_sin_cos by lra. reflexivity.
Qed.

Lemma sin_period_Z (x : R) (k : Z) : sin (x + 2 * IZR k * PI) = sin x.
Proof.
  destruct (Z_le_gt_dec 0 k) as [H | H].
  - rewrite <- (Z2Nat.id k H), <- INR_IZR_INZ. apply sin_period.
  - rewrite <- (sin_period (x + 2 * IZR k * PI) (Z.to_nat (- k))).
    f_equal. rewrite INR_IZR_INZ, Z2Nat.id by lia. rewrite opp_IZR. ring.
Qed.

Lemma cos_period_Z (x : R) (k : Z) : cos (x + 2 * IZR k * PI) = cos x.
Proof.
  destruct (Z_le_gt_dec 0 k) as [H | H].
  - rewrite <- (Z2Nat.id k H), <- INR_IZR_INZ. apply cos_period.
  - rewrite <- (cos_period (x + 2 * IZR k * PI) (Z.to_nat (- k))).
    f_equal. rewrite INR_IZR_INZ, Z2Nat.id by lia. rewrite opp_IZR. ring.
Qed.

Lemma getAngleDiff_turns_r (a b : R) (k : Z) :
  getAngleDiff a (b + 2 * IZR k * PI) = getAngleDiff a b.
Proof.
  unfold getAngleDiff.
  replace (b + 2 * IZR k * PI - a) with (b - a + 2 * IZR k * PI) by ring.
  rewrite sin_period_Z, cos_period_Z. reflexivity.
Qed.

Lemma getAngleDiff_turns_l (a b : R) (k : Z) :
  getAngleDiff (a + 2 * IZR k * PI) b = getAngleDiff a b.
Proof.
  unfold getAngleDiff.
  replace (b - (a + 2 * IZR k * PI)) with (b - a + 2 * IZR (- k) * PI)
    by (rewrite opp_IZR; ring).
  rewrite sin_period_Z, cos_period_Z. reflexivity.
Qed.

(** X1.  [getAngleDiff] is the shortest way round from one angle to the other:
    when [b - a], taken some whole turns back or forth, lies within half a
    turn, its size is the result. *)
Theorem getAngleDiff_shortest_way_round :
  forall (a b : R) (k : Z),
    - PI <= b - a + 2 * IZR k * PI <= PI ->
    getAngleDiff a b = Rabs (b - a + 2 * IZR k * PI).
Proof.
  intros a b k H.
  rewrite <- (getAngleDiff_turns_r a b k).
  rewrite getAngleDiff_plain.
  - f_equal. ring.
  - replace (b + 2 * IZR k * PI - a) with (b - a + 2 * IZR k * PI) by ring.
    exact H.
Qed.

Lemma getAngleDiff_shortest_way_round_witness :
  getAngleDiff 0 (PI * 3 / 2) = Rabs (PI * 3 / 2 - 0 + 2 * IZR (-1) * PI).
Proof.
  apply getAngleDiff_shortest_way_round.
  pose proof PI_RGT_0. lra.
Defined.

(** X2.  Whole turns added to either angle do not change [getAngleDiff]. *)
Theorem getAngleDiff_whole_turns :
  forall (a b : R) (j k : Z),
    getAngleDiff (a + 2 * IZR j * PI) (b + 2 * IZR k * PI) = getAngleDiff a b.
Proof.
  intros a b j k. rewrite getAngleDiff_turns_l. apply getAngleDiff_turns_r.
Qed.

(** The differences between the angles of the four directions: two different
    ones are a quarter turn apart at least. *)
Lemma cardinalAngles_apart (a b : R) :
  In a cardinalAngles -> In b cardinalAngles -> a <> b ->
  PI / 2 <= getAngleDiff a b.
Proof.
  pose proof PI_RGT_0 as Hpi.
  assert (Q : forall u v, v - u = PI / 2 \/ v - u = - (PI / 2) \/
                          v - u = PI \/ v - u = - PI ->
                          PI / 2 <= getAngleDiff u v).
  { intros u v Huv. rewrite getAngleDiff_plain by lra.
    unfold Rabs. destruct (Rcase_abs (v - u)); lra. }
  assert (T : forall u v, v - u = PI * 3 / 2 \/ v - u = - (PI * 3 / 2) ->
                          PI / 2 <= getAngleDiff u v).
  { intros u v [Huv | Huv].
    - rewrite <- (getAngleDiff_turns_r u v (-1)).
      rewrite getAngleDiff_plain by lra.
      unfold Rabs. destruct (Rcase_abs _); lra.
    - rewrite <- (getAngleDiff_turns_r u v 1).
      rewrite getAngleDiff_plain by lra.
      unfold Rabs. destruct (Rcase_abs _); lra. }
  unfold cardinalAngles. cbn [In].
  intros [<- | [<- | [<- | [<- | []]]]] [<- | [<- | [<- | [<- | []]]]] Hne;
    try (exfalso; apply Hne; reflexivity);
    first [apply Q; lra | apply T; lra].
Qed.

Lemma cardinalAngles_same_or_outside (a b : R) :
  In a cardinalAngles -> In b cardinalAngles ->
  (getAngleDiff a b <= PI / 4 <-> a = b).
Proof.
  intros Ha Hb. pose proof PI_RGT_0 as Hpi. split.
  - intros H. destruct (Req_dec a b) as [E | E]; [exact E |].
    pose proof (cardinalAngles_apart a b Ha Hb E). lra.
  - intros <-. rewrite getAngleDiff_diag. lra.
Qed.
End ShortestAngle.

(** ** What [getRectDiff] says about two rectangles *)

Section RectRelation.
Local Open Scope R_scope.

Lemma areAlignedVertically_sym (a b : DOMRect.t) :
  areAlignedVertically a b = areAlignedVertically b a.
Proof.
  apply eq_true_iff_eq. rewrite !areAlignedVertically_iff. tauto.
Qed.

Lemma areAlignedHorizontally_sym (a b : DOMRect.t) :
  areAlignedHorizontally a b = areAlignedHorizontally b a.
Proof.
  apply eq_true_iff_eq. rewrite !areAlignedHorizontally_iff. tauto.
Qed.

Lemma hypot_sym (u v u' v' : R) :
  u' = - u -> v' = - v -> Math.hypot u v = Math.hypot u' v'.
Proof. intros -> ->. unfold Math.hypot. f_equal. ring. Qed.

(** X3.  The distance and the alignment do not depend on which of the two
    rectangles is the reference, and the distance is never negative. *)
Theorem getRectDiff_distance_symmetric :
  forall rectA rectB : DOMRect.t,
    distance (getRectDiff rectA rectB) = distance (getRectDiff rectB rectA) /\
    areAligned (getRectDiff rectA rectB) = areAligned (getRectDiff rectB rectA) /\
    0 <= distance (getRectDiff rectA rectB).
Proof.
  intros rectA rectB. unfold getRectDiff.
  rewrite (areAlignedVertically_sym rectB rectA).
  rewrite (areAlignedHorizontally_sym rectB rectA).
  destruct (areAlignedVertically rectA rectB),
           (areAlignedHorizontally rectA rectB);
    cbn [andb distance areAligned]; unfold Math.min, Math.abs.
  - repeat split; lra.
  - repeat split.
    + rewrite Rmin_comm.
      rewrite (Rabs_minus_sym (DOMRect.bottom rectA)).
      rewrite (Rabs_minus_sym (DOMRect.top rectA)). reflexivity.
    + apply Rmin_glb; apply Rabs_pos.
  - repeat split.
    + rewrite Rmin_comm.
      rewrite (Rabs_minus_sym (DOMRect.right rectA)).
      rewrite (Rabs_minus_sym (DOMRect.left rectA)). reflexivity.
    + apply Rmin_glb; apply Rabs_pos.
  - repeat split.
    + apply hypot_sym; ring.
    + unfold Math.hypot. apply sqrt_pos.
Qed.

(** The angle from the reference to the other rectangle is an angle of
    [Math.atan2]. *)
Lemma midAngle_range (rectA rectB : DOMRect.t) :
  - PI < midAngle (getRectDiff rectA rectB) <= PI.
Proof.
  unfold getRectDiff.
  destruct (areAlignedVertically rectA rectB),
           (areAlignedHorizontally rectA rectB);
    cbn [andb midAngle]; apply atan2_bounds.
Qed.

Lemma gap_below (lo hi lo' hi' : R) :
  lo <= hi -> lo' <= hi' -> hi < lo' ->
  Rmin (Rabs (lo - hi')) (Rabs (hi - lo')) = lo' - hi.
Proof.
  intros. unfold Rmin, Rabs.
  destruct (Rcase_abs (lo - hi')), (Rcase_abs (hi - lo'));
    destruct (Rle_dec _ _); lra.
Qed.

Lemma gap_above (lo hi lo' hi' : R) :
  lo <= hi -> lo' <= hi' -> hi' < lo ->
  Rmin (Rabs (lo - hi')) (Rabs (hi - lo')) = lo - hi'.
Proof.
  intros. unfold Rmin, Rabs.
  destruct (Rcase_abs (lo - hi')), (Rcase_abs (hi - lo'));
    destruct (Rle_dec _ _); lra.
Qed.

(** X4.  For a rectangle aligned with the reference on one axis and wholly to one
    side of it, the distance is the gap between the facing edges and
    [minAngle] is the angle of the direction it lies in: down, up, right or
    left. *)
Theorem getRectDiff_gap_and_side :
  forall rectA rectB : DOMRect.t,
    (overlapOnX rectA rectB -> DOMRect.bottom rectA < DOMRect.top rectB ->
     getRectDiff rectA rectB =
     {| distance := DOMRect.top rectB - DOMRect.bottom rectA;
        areAligned := true;
        midAngle := getAngle (getMiddle rectA) (getMiddle rectB);
        minAngle := PI / 2 |}) /\
    (overlapOnX rectA rectB -> DOMRect.bottom rectB < DOMRect.top rectA ->
     getRectDiff rectA rectB =
     {| distance := DOMRect.top rectA - DOMRect.bottom rectB;
        areAligned := true;
        midAngle := getAngle (getMiddle rectA) (getMiddle rectB);
        minAngle := PI * 3 / 2 |}) /\
    (overlapOnY rectA rectB -> DOMRect.right rectA < DOMRect.left rectB ->
     getRectDiff rectA rectB =
     {| distance := DOMRect.left rectB - DOMRect.right rectA;
        areAligned := true;
        midAngle := getAngle (getMiddle rectA) (getMiddle rectB);
        minAngle := 0 |}) /\
    (overlapOnY rectA rectB -> DOMRect.right rectB < DOMRect.left rectA ->
     getRectDiff rectA rectB =
     {| distance := DOMRect.left rectA - DOMRect.right rectB;
        areAligned := true;
        midAngle := getAngle (getMiddle rectA) (getMiddle rectB);
        minAngle := PI |}).
Proof.
  intros rectA rectB.
  pose proof (top_le_bottom rectA) as Ha. pose proof (top_le_bottom rectB) as Hb.
  pose proof (left_le_right rectA) as Ha'. pose proof (left_le_right rectB) as Hb'.
  repeat split.
  - intros Hx Hgap.
    rewrite getRectDiff_vertical by (try assumption; unfold overlapOnY; lra).
    rewrite gap_below by assumption.
    destruct (Rltb_true (DOMRect.top rectA) (DOMRect.bottom rectB)) as [_ E].
    rewrite E by lra. reflexivity.
  - intros Hx Hgap.
    rewrite getRectDiff_vertical by (try assumption; unfold overlapOnY; lra).
    rewrite gap_above by assumption.
    destruct (Rltb_false (DOMRect.top rectA) (DOMRect.bottom rectB)) as [_ E].
    rewrite E by lra. reflexivity.
  - intros Hy Hgap.
    rewrite getRectDiff_horizontal by (try assumption; unfold overlapOnX; lra).
    rewrite gap_below by assumption.
    destruct (Rltb_true (DOMRect.left rectA) (DOMRect.right rectB)) as [_ E].
    rewrite E by lra. reflexivity.
  - intros Hy Hgap.
    rewrite getRectDiff_horizontal by (try assumption; unfold overlapOnX; lra).
    rewrite gap_above by assumption.
    destruct (Rltb_false (DOMRect.left rectA) (DOMRect.right rectB)) as [_ E].
    rewrite E by lra. reflexivity.
Qed.

Lemma getRectDiff_gap_and_side_witness :
  getRectDiff rect_0_0_100_100 boxBelow =
  {| distance := DOMRect.top boxBelow - DOMRect.bottom rect_0_0_100_100;
     areAligned := true;
     midAngle := getAngle (getMiddle rect_0_0_100_100) (getMiddle boxBelow);
     minAngle := PI / 2 |} /\
  getRectDiff rect_0_0_100_100 boxRight =
  {| distance := DOMRect.left boxRight - DOMRect.right rect_0_0_100_100;
     areAligned := true;
     midAngle := getAngle (getMiddle rect_0_0_100_100) (getMiddle boxRight);
     minAngle := 0 |}.
Proof.
  split.
  - apply (proj1 (getRectDiff_gap_and_side rect_0_0_100_100 boxBelow)).
    + unfold overlapOnX, rect_0_0_100_100, boxBelow. edges. lra.
    + unfold rect_0_0_100_100, boxBelow. edges. lra.
  - apply (proj1 (proj2 (proj2 (getRectDiff_gap_and_side rect_0_0_100_100 boxRight)))).
    + unfold overlapOnY, rect_0_0_100_100, boxRight. edges. lra.
    + unfold rect_0_0_100_100, boxRight. edges. lra.
Defined.

(** The [minAngle] of a rectangle aligned with the reference on one axis only
    is one of the four angles of the directions. *)
Lemma minAngle_cardinal (rectA rectB : DOMRect.t) :
  areAlignedVertically rectA rectB && areAlignedHorizontally rectA rectB = false ->
  areAligned (getRectDiff rectA rectB) = true ->
  In (minAngle (getRectDiff rectA rectB)) cardinalAngles.
Proof.
  unfold getRectDiff, cardinalAngles.
  destruct (areAlignedVertically rectA rectB),
           (areAlignedHorizontally rectA rectB);
    cbn [andb areAligned minAngle In]; try discriminate; intros _ _.
  - destruct (Rltb _ _); auto.
  - destruct (Rltb _ _); auto.
Qed.

Lemma keyToAngle_cardinal (k : string) (angle : R) :
  keyToAngle k = JsNumber angle -> In angle cardinalAngles.
Proof.
  unfold keyToAngle, cardinalAngles. cbn [In].
  repeat match goal with
         | |- context [if ?c then _ else _] => destruct c
         end;
    intros E; try discriminate; injection E as <-; auto.
Qed.

(** X5.  A candidate aligned with the focused element on one axis only passes the
    direction filter of the keys whose angle is its [minAngle], and of no
    other navigation key: it can be reached in one direction only. *)
Theorem one_axis_candidate_one_direction :
  forall (cur cand : Element) (k : string) (angle : R),
    keyToAngle k = JsNumber angle ->
    let info := infoOf (boundingClientRect cur) cand in
    areAligned (diff info) = true ->
    ~ (overlapOnX (boundingClientRect cur) (boundingClientRect cand) /\
       overlapOnY (boundingClientRect cur) (boundingClientRect cand)) ->
    (inDirection (keyToAngle k) info = true <-> minAngle (diff info) = angle).
Proof.
  intros cur cand k angle Hk info Hal Hno.
  rewrite Hk, inDirection_number.
  apply cardinalAngles_same_or_outside.
  - apply minAngle_cardinal; [| exact Hal].
    apply not_true_iff_false. intros H. apply andb_true_iff in H.
    destruct H as [H1 H2]. apply Hno.
    apply areAlignedVertically_iff in H1.
    apply areAlignedHorizontally_iff in H2.
    split; assumption.
  - eapply keyToAngle_cardinal. exact Hk.
Qed.

Lemma one_axis_candidate_one_direction_witness :
  inDirection (keyToAngle "ArrowDown") (infoOf (boundingClientRect current) under)
  = true <->
  minAngle (diff (infoOf (boundingClientRect current) under)) = PI / 2.
Proof.
  apply (one_axis_candidate_one_direction current under "ArrowDown" (PI / 2)).
  - reflexivity.
  - fold currentRect. rewrite diff_under. reflexivity.
  - intros [_ Hy]. revert Hy.
    unfold overlapOnY, current, under, plainElement, rect_0_0_100_100.
    cbn [boundingClientRect]. edges. lra.
Defined.
End RectRelation.

(** ** The comparator and the order of the candidates *)

Section RankingOrder.
Local Open Scope R_scope.

Lemma Num_ltb_irrefl (n : Num) : Num_ltb n n = false.
Proof.
  destruct n as [r |]; [| reflexivity]. cbn.
  apply Rltb_false. lra.
Qed.

(** X6.  The comparator answers the swapped question with the opposite sign, finds
    a candidate equal to itself, and its "not after" is transitive: [sort] is
    given a consistent comparator. *)
Theorem compareInfo_consistent :
  forall (moveAngle : JsValue) (a b c : Info),
    compareInfo moveAngle b a = (- compareInfo moveAngle a b)%Z /\
    compareInfo moveAngle a a = 0%Z /\
    ((compareInfo moveAngle a b <= 0)%Z -> (compareInfo moveAngle b c <= 0)%Z ->
     (compareInfo moveAngle a c <= 0)%Z).
Proof.
  intros moveAngle a b c. split; [| split].
  - unfold compareInfo.
    destruct (areAligned (diff a)), (areAligned (diff b));
      cbn [andb negb]; try reflexivity.
    all: destruct (Rltb (distance (diff a)) (distance (diff b))) eqn:Hab;
      destruct (Rltb (distance (diff b)) (distance (diff a))) eqn:Hba;
      try reflexivity;
      try (apply Rltb_true in Hab; apply Rltb_true in Hba; lra).
    all: rewrite !Num_ltb_irrefl; reflexivity.
  - apply compareInfo_same_key; reflexivity.
  - rewrite <- !Z.leb_le, !compareInfo_before. apply ranksBefore_trans.
Qed.

Lemma compareInfo_consistent_witness :
  (compareInfo (keyToAngle "ArrowRight") (infoOf currentRect lower)
     (infoOf currentRect lower) <= 0)%Z.
Proof.
  refine (proj2 (proj2 (compareInfo_consistent (keyToAngle "ArrowRight")
            (infoOf currentRect lower) (infoOf currentRect level)
            (infoOf currentRect lower))) _ _).
  - unfold lower. rewrite compareInfo_same_key; [lia | |];
      rewrite diff_lower, diff_level; reflexivity.
  - unfold lower. rewrite compareInfo_same_key; [lia | |];
      rewrite diff_lower, diff_level; reflexivity.
Defined.

(** *** [sort] leaves tied candidates in the order it found them *)

Lemma filter_insert {A : Type} (cmp : A -> A -> Z) (p : A -> bool) :
  (forall x y, p x = true -> p y = true -> (cmp x y <= 0)%Z) ->
  forall (x : A) (s : list A),
    filter p (insert cmp x s) = if p x then x :: filter p s else filter p s.
Proof.
  intros Hp x s. induction s as [| y s IH]; cbn [insert filter].
  - reflexivity.
  - destruct (cmp x y <=? 0)%Z eqn:E; cbn [filter].
    + reflexivity.
    + rewrite IH. destruct (p x) eqn:Px; [| reflexivity].
      destruct (p y) eqn:Py; [| reflexivity].
      apply Z.leb_gt in E. specialize (Hp x y Px Py). lia.
Qed.

Lemma filter_sort {A : Type} (cmp : A -> A -> Z) (p : A -> bool) :
  (forall x y, p x = true -> p y = true -> (cmp x y <= 0)%Z) ->
  forall l : list A, filter p (sort cmp l) = filter p l.
Proof.
  intros Hp l. induction l as [| x l IH]; cbn [sort filter]; [reflexivity |].
  rewrite (filter_insert cmp p Hp), IH. reflexivity.
Qed.

Lemma tiedWith_spec (k i : Info) :
  tiedWith k i = true <->
  areAligned (diff i) = areAligned (diff k) /\
  distance (diff i) = distance (diff k).
Proof.
  unfold tiedWith. rewrite andb_true_iff, Bool.eqb_true_iff.
  destruct (Req_dec_T _ _); split; intros [H1 H2]; split;
    auto; discriminate.
Qed.

(** X7.  The ranked candidates are the filtered candidates, every one once, in the
    order of [ranksBefore] (aligned ones first, closer ones first among those
    of equal alignment); candidates that tie on both keep the order of the
    document. *)
Theorem rankedCandidates_order :
  forall (moveAngle : JsValue) (cur : Element) (l : list Element) (pg : Page),
    let filtered := filteredCandidates moveAngle cur l pg in
    let ranked := rankedCandidates moveAngle cur l pg in
    Permutation filtered ranked /\
    StronglySorted ranksBefore ranked /\
    (forall k : Info, filter (tiedWith k) ranked = filter (tiedWith k) filtered).
Proof.
  intros moveAngle cur l pg filtered ranked.
  change ranked with (sort (compareInfo moveAngle) filtered).
  split; [apply sort_perm |]. split; [apply sort_sorted |].
  intros k. apply filter_sort.
  intros x y Hx Hy. apply tiedWith_spec in Hx. apply tiedWith_spec in Hy.
  rewrite compareInfo_same_key; [lia | |];
    destruct Hx, Hy; congruence.
Qed.

(** *** Which elements are candidates *)

Lemma rankedCandidates_In_inv
    (moveAngle : JsValue) (cur : Element) (l : list Element) (pg : Page)
    (info : Info) :
  In info (rankedCandidates moveAngle cur l pg) ->
  exists el : Element,
    info = infoOf (boundingClientRect cur) el /\
    In el l /\
    sameElement el cur = false /\
    visible el = true /\
    inDirection moveAngle info = true /\
    onScreenOrAligned pg info = true.
Proof.
  unfold rankedCandidates. intros Hin.
  eapply Permutation_in in Hin; [| symmetry; apply sort_perm].
  apply filter_In in Hin. destruct Hin as [Hin Hon].
  apply filter_In in Hin. destruct Hin as [Hin Hdir].
  apply in_map_iff in Hin. destruct Hin as [el [<- Hin]].
  apply filter_In in Hin. destruct Hin as [Hin Hvis].
  apply filter_In in Hin. destruct Hin as [Hin Hne].
  apply negb_true_iff in Hne.
  exists el. repeat split; assumption.
Qed.

(** X8.  The candidates of a request are exactly the focusable elements that are
    not the focused one, are visible, and pass the direction filter and the
    off-screen filter. *)
Theorem rankedCandidates_members :
  forall (moveAngle : JsValue) (cur : Element) (l : list Element) (pg : Page)
         (info : Info),
    In info (rankedCandidates moveAngle cur l pg) <->
    (exists el : Element,
        info = infoOf (boundingClientRect cur) el /\
        In el l /\
        sameElement el cur = false /\
        visible el = true /\
        inDirection moveAngle info = true /\
        onScreenOrAligned pg info = true).
Proof.
  intros moveAngle cur l pg info. split.
  - apply rankedCandidates_In_inv.
  - intros [el [-> [Hin [Hne [Hvis [Hdir Hon]]]]]].
    unfold rankedCandidates.
    eapply Permutation_in; [apply sort_perm |].
    apply filter_In. split; [| exact Hon].
    apply filter_In. split; [| exact Hdir].
    apply in_map. apply filter_In. split; [| exact Hvis].
    apply filter_In. split; [exact Hin |].
    apply negb_true_iff. exact Hne.
Qed.
End RankingOrder.

(** ** What a navigation request does to the focus *)

Section Requests.
Local Open Scope R_scope.

(** A request with a focused element: the candidates are ranked, tried, and
    the one that took the focus is scrolled into view. *)
Lemma moveFocus_with_current (moveAngle : JsValue) (pg : Page) (cur : Element) :
  activeElement pg = Some cur ->
  moveFocus moveAngle pg =
  match
    findFocus
      (rankedCandidates moveAngle cur (fst (getFocusableElements pg))
         (call QuerySelectorAll pg))
      (call QuerySelectorAll pg)
  with
  | (Some focussed, pg') => scrollIntoView (element focussed) pg'
  | (None, pg') => pg'
  end.
Proof.
  intros Ha. unfold moveFocus, getFocusableElements. cbn [fst].
  rewrite Ha. destruct (filter _ (selectorMatches pg)); reflexivity.
Qed.

Lemma StronglySorted_middle {A : Type} (R : A -> A -> Prop)
    (pre post : list A) (a : A) :
  StronglySorted R (pre ++ a :: post) -> Forall (R a) post.
Proof.
  induction pre as [| p pre IH]; cbn [app]; intros H.
  - apply StronglySorted_inv in H. tauto.
  - apply StronglySorted_inv in H. tauto.
Qed.

Lemma ranksBefore_refl (a : Info) : ranksBefore a a.
Proof. right. split; [reflexivity | lra]. Qed.

(** X9.  The candidate a request focuses is the best of those that take the focus:
    no candidate that takes the focus ranks strictly before it.  So the focus
    goes to an aligned candidate whenever one takes it, and to a closest one
    among those. *)
Theorem moveFocus_focuses_best_taker :
  forall (moveAngle : JsValue) (pg : Page) (cur : Element) (info : Info),
    activeElement pg = Some cur ->
    let ranked :=
      rankedCandidates moveAngle cur (fst (getFocusableElements pg))
        (call QuerySelectorAll pg) in
    find takes ranked = Some info ->
    activeElement (moveFocus moveAngle pg) = Some (element info) /\
    (forall c : Info, In c ranked -> takes c = true -> ranksBefore info c).
Proof.
  intros moveAngle pg cur info Ha ranked Hfind.
  pose proof (findFocus_walk cur ranked (call QuerySelectorAll pg) Ha
                (rankedCandidates_isNot _ _ _ _)) as W.
  rewrite Hfind in W. destruct W as [pre [post [E [Hpre [F [A C]]]]]].
  split.
  - rewrite (moveFocus_with_current moveAngle pg cur Ha). fold ranked.
    destruct (findFocus ranked (call QuerySelectorAll pg)) as [r p].
    cbn [fst snd] in F, A. subst r. exact A.
  - intros c Hc Htc.
    pose proof (sort_sorted moveAngle
                  (filteredCandidates moveAngle cur
                     (fst (getFocusableElements pg)) (call QuerySelectorAll pg)))
      as Hs.
    change (sort _ _) with ranked in Hs. rewrite E in Hs, Hc.
    apply in_app_or in Hc. destruct Hc as [Hc | [<- | Hc]].
    + rewrite Forall_forall in Hpre. rewrite (Hpre c Hc) in Htc. discriminate.
    + apply ranksBefore_refl.
    + apply StronglySorted_middle in Hs. rewrite Forall_forall in Hs. auto.
Qed.

Lemma moveFocus_focuses_best_taker_witness :
  activeElement (moveFocus (keyToAngle "ArrowRight") stubbornPage) = Some level.
Proof.
  refine (proj1 (moveFocus_focuses_best_taker (keyToAngle "ArrowRight")
                   stubbornPage current (infoOf currentRect level) eq_refl _)).
  change (fst (getFocusableElements stubbornPage))
    with [current; lowerElement false; level].
  rewrite rankedCandidates_rankingPage. reflexivity.
Defined.

(** X10.  When a request moves the focus, it moves it to a focusable element that is
    visible, takes the focus, is not the element that had it, and passes both
    filters; otherwise the focus stays where it was. *)
Theorem moveFocus_lands_on_a_candidate :
  forall (moveAngle : JsValue) (pg : Page) (cur : Element),
    activeElement pg = Some cur ->
    activeElement (moveFocus moveAngle pg) = Some cur \/
    exists el : Element,
      activeElement (moveFocus moveAngle pg) = Some el /\
      In el (fst (getFocusableElements pg)) /\
      sameElement el cur = false /\
      visible el = true /\
      takesFocus el = true /\
      inDirection moveAngle (infoOf (boundingClientRect cur) el) = true /\
      onScreenOrAligned (call QuerySelectorAll pg)
        (infoOf (boundingClientRect cur) el) = true.
Proof.
  intros moveAngle pg cur Ha.
  set (ranked := rankedCandidates moveAngle cur (fst (getFocusableElements pg))
                   (call QuerySelectorAll pg)).
  pose proof (findFocus_walk cur ranked (call QuerySelectorAll pg) Ha
                (rankedCandidates_isNot _ _ _ _)) as W.
  rewrite (moveFocus_with_current moveAngle pg cur Ha). fold ranked.
  destruct (find takes ranked) as [info |] eqn:Hfind.
  - right. destruct W as [pre [post [E [Hpre [F [A C]]]]]].
    apply find_some in Hfind. destruct Hfind as [Hin Ht].
    apply rankedCandidates_In_inv in Hin.
    destruct Hin as [el [E' [Hin [Hne [Hvis [Hdir Hon]]]]]].
    exists el.
    destruct (findFocus ranked (call QuerySelectorAll pg)) as [r p].
    cbn [fst snd] in F, A. subst r.
    assert (Hel : element info = el) by (rewrite E'; reflexivity).
    rewrite <- E'. repeat split; try assumption.
    + cbn [scrollIntoView call activeElement]. rewrite A, Hel. reflexivity.
    + unfold takes in Ht. rewrite Hel in Ht. exact Ht.
  - left. destruct W as [F [A C]].
    destruct (findFocus ranked (call QuerySelectorAll pg)) as [r p].
    cbn [fst snd] in F, A. subst r. exact A.
Qed.

Lemma moveFocus_lands_on_a_candidate_witness :
  activeElement (moveFocus (keyToAngle "ArrowRight") stubbornPage) = Some current \/
  exists el : Element,
    activeElement (moveFocus (keyToAngle "ArrowRight") stubbornPage) = Some el /\
    In el (fst (getFocusableElements stubbornPage)) /\
    sameElement el current = false /\
    visible el = true /\
    takesFocus el = true /\
    inDirection (keyToAngle "ArrowRight")
      (infoOf (boundingClientRect current) el) = true /\
    onScreenOrAligned (call QuerySelectorAll stubbornPage)
      (infoOf (boundingClientRect current) el) = true.
Proof.
  exact (moveFocus_lands_on_a_candidate (keyToAngle "ArrowRight")
           stubbornPage current eq_refl).
Defined.

(** X11.  The two requests that do not rank anything.  Without focusable elements a
    request only asks for them.  Without a focused element it makes one focus
    call, on the first focusable element of the document, whatever the angle;
    it does not scroll. *)
Theorem moveFocus_without_candidates_or_focus :
  forall (moveAngle : JsValue) (pg : Page),
    (fst (getFocusableElements pg) = [] ->
     moveFocus moveAngle pg = call QuerySelectorAll pg) /\
    (forall (first : Element) (rest : list Element),
        activeElement pg = None ->
        fst (getFocusableElements pg) = first :: rest ->
        calls (moveFocus moveAngle pg)
        = calls pg ++ [QuerySelectorAll; Focus (ident first) false] /\
        activeElement (moveFocus moveAngle pg)
        = if takesFocus first then Some first else None).
Proof.
  intros moveAngle pg. split.
  - unfold moveFocus, getFocusableElements. cbn [fst]. intros ->. reflexivity.
  - intros first rest Ha. unfold moveFocus, getFocusableElements. cbn [fst].
    intros ->. rewrite Ha. split.
    + rewrite calls_focus. cbn [call calls]. rewrite <- app_assoc. reflexivity.
    + unfold focus. destruct (takesFocus first); cbn; [reflexivity | exact Ha].
Qed.

Lemma moveFocus_without_candidates_or_focus_witness :
  moveFocus (keyToAngle "ArrowUp") emptyPage = call QuerySelectorAll emptyPage /\
  activeElement (moveFocus (keyToAngle "ArrowUp") unfocusedPage) = Some current.
Proof.
  split.
  - apply (proj1 (moveFocus_without_candidates_or_focus
                    (keyToAngle "ArrowUp") emptyPage)).
    reflexivity.
  - apply (proj2 (moveFocus_without_candidates_or_focus
                    (keyToAngle "ArrowUp") unfocusedPage)
             current [lower; level] eq_refl eq_refl).
Defined.

(** X12.  The off-screen filter, for a candidate that is not aligned: it is kept
    when its rect touches the viewport, and dropped when its rect lies more
    than a fifth of the viewport's width beyond the right edge. *)
Theorem onScreenOrAligned_viewport :
  forall (pg : Page) (info : Info),
    (0 <= innerWidth pg -> 0 <= innerHeight pg ->
     0 <= DOMRect.right (rect info) -> DOMRect.left (rect info) <= innerWidth pg ->
     0 <= DOMRect.bottom (rect info) -> DOMRect.top (rect info) <= innerHeight pg ->
     onScreenOrAligned pg info = true) /\
    (areAligned (diff info) = false ->
     innerWidth pg * (12 / 10) < DOMRect.left (rect info) ->
     onScreenOrAligned pg info = false).
Proof.
  intros pg info. split.
  - intros Hw Hh H1 H2 H3 H4. unfold onScreenOrAligned.
    destruct (areAligned (diff info)); [reflexivity |].
    apply negb_true_iff. rewrite !orb_false_iff.
    rewrite !Rltb_false, !Rgtb_false. repeat split; nra.
  - intros Hal Hleft. unfold onScreenOrAligned. rewrite Hal.
    apply negb_false_iff. rewrite !orb_true_iff.
    left. left. right. apply Rgtb_true. lra.
Qed.

Lemma onScreenOrAligned_viewport_witness :
  onScreenOrAligned alignmentPage (infoOf currentRect diagonal) = true.
Proof.
  apply (proj1 (onScreenOrAligned_viewport alignmentPage
                  (infoOf currentRect diagonal)));
    unfold alignmentPage, infoOf, diagonal, plainElement;
    cbn [innerWidth innerHeight rect boundingClientRect]; edges; lra.
Defined.
End Requests.

(** ** The keys *)

Section Keys.
Local Open Scope Z_scope.

(** X13.  [keyToAngle] gives a number for the eight navigation keys and for no other
    key, and the same angle for a letter as for its arrow. *)
Theorem keyToAngle_navigationKeys :
  (forall k : string, navigationKey k <-> In k navigationKeys) /\
  keyToAngle "w" = keyToAngle "ArrowUp" /\
  keyToAngle "s" = keyToAngle "ArrowDown" /\
  keyToAngle "a" = keyToAngle "ArrowLeft" /\
  keyToAngle "d" = keyToAngle "ArrowRight".
Proof.
  split; [| repeat split; reflexivity].
  intros k. unfold navigationKey, navigationKeys, keyToAngle. cbn [In].
  repeat match goal with
         | |- context [String.eqb k ?s] => destruct (String.eqb_spec k s)
         end;
    subst;
    try (split; [intros _; auto 10 | intros _; eexists; reflexivity]).
  split.
  - intros [angle E]. discriminate.
  - intros H.
    repeat match goal with
           | H : _ \/ _ |- _ => destruct H
           | H : False |- _ => destruct H
           end; subst; congruence.
Qed.

Lemma directionOfKey_arrow (k : string) (d : Part000.Direction) :
  Part000.directionOfKey k = Some d -> In k arrowKeys.
Proof.
  unfold Part000.directionOfKey, arrowKeys. cbn [In].
  repeat match goal with
         | |- context [String.eqb k ?s] => destruct (String.eqb_spec k s)
         end; subst; auto; discriminate.
Qed.

(** X14.  The two variants agree on the arrow keys: the older listener passes a
    direction for exactly these four keys, and [dirToAngle] gives it the angle
    [keyToAngle] gives the key. *)
Theorem arrow_keys_same_angle_in_both_variants :
  forall k : string,
    (In k arrowKeys <-> exists d, Part000.directionOfKey k = Some d) /\
    (forall d : Part000.Direction,
        Part000.directionOfKey k = Some d ->
        keyToAngle k = JsNumber (Part000.dirToAngle d)).
Proof.
  intros k. split; [split |].
  - unfold arrowKeys. cbn [In].
    intros [<- | [<- | [<- | [<- | []]]]]; eexists; reflexivity.
  - intros [d H]. eapply directionOfKey_arrow. exact H.
  - intros d. unfold Part000.directionOfKey, keyToAngle.
    repeat match goal with
           | |- context [String.eqb k ?s] => destruct (String.eqb_spec k s)
           end;
      intros E; try discriminate; injection E as <-; reflexivity.
Qed.

Lemma arrow_keys_same_angle_in_both_variants_witness :
  keyToAngle "ArrowLeft" = JsNumber (Part000.dirToAngle Part000.ArrowLeft).
Proof.
  apply (proj2 (arrow_keys_same_angle_in_both_variants "ArrowLeft")).
  reflexivity.
Defined.
End Keys.

Section KeysWitness.

Lemma keyToAngle_navigationKeys_witness : navigationKey "w".
Proof.
  apply (proj2 (proj1 keyToAngle_navigationKeys "w"%string)).
  right; right; right; right; left. reflexivity.
Defined.
End KeysWitness.

(** ** The listeners of the older variant *)

Section OlderListeners.
Local Open Scope Z_scope.

(** Every run of the older selector asks for the focusable elements once. *)
Lemma selectorRuns_Part000_moveFocus (d : Part000.Direction) (pg : Page) :
  selectorRuns (Part000.moveFocus d pg) = S (selectorRuns pg).
Proof.
  destruct (Part000_moveFocus_calls d pg) as [added [E Hadd]].
  unfold selectorRuns. rewrite E, filter_app, length_app. cbn [filter isQuery].
  assert (Hq : filter isQuery added = []).
  { destruct Hadd as [-> | [[n ->] | [n ->]]]; reflexivity. }
  rewrite Hq. cbn [List.length]. lia.
Qed.

Lemma historyBacks_Part000_moveFocus (d : Part000.Direction) (pg : Page) :
  historyBacks (Part000.moveFocus d pg) = historyBacks pg.
Proof.
  destruct (Part000_moveFocus_calls d pg) as [added [E Hadd]].
  unfold historyBacks. rewrite E, filter_app, length_app. cbn [filter isBack].
  assert (Hq : filter isBack added = []).
  { destruct Hadd as [-> | [[n ->] | [n ->]]]; reflexivity. }
  rewrite Hq. cbn [List.length]. lia.
Qed.

Lemma selectorRuns_Part000_keydown (k : string) (now now' : Z) (st : State) :
  selectorRuns (page (Part000.keydown k now now' st))
  = (selectorRuns (page st)
     + match Part000.directionOfKey k with
       | Some _ => if now - lastEventTime st >? 100 then 1 else 0
       | None => 0
       end)%nat.
Proof.
  unfold Part000.keydown.
  destruct (Part000.directionOfKey k) as [d |].
  - destruct (now - lastEventTime st >? 100); cbn [page];
      rewrite selectorRuns_call; cbn [isQuery];
      rewrite ?selectorRuns_Part000_moveFocus; lia.
  - destruct (String.eqb k "Backspace"); cbn [page];
      rewrite ?selectorRuns_call; cbn [isQuery]; lia.
Qed.

Lemma lastEventTime_Part000_keydown (k : string) (now now' : Z) (st : State) :
  lastEventTime (Part000.keydown k now now' st)
  = match Part000.directionOfKey k with
    | Some _ => if now - lastEventTime st >? 100 then now' else lastEventTime st
    | None => lastEventTime st
    end.
Proof.
  unfold Part000.keydown.
  destruct (Part000.directionOfKey k) as [d |].
  - destruct (now - lastEventTime st >? 100); reflexivity.
  - destruct (String.eqb k "Backspace"); reflexivity.
Qed.

(** X15.  The older keydown listener throttles like the newer one: in a sequence of
    key-downs of any keys, whose clock readings do not run backwards within
    one event, the selector runs at times more than 100ms apart and more than
    100ms after the time recorded before. *)
Theorem Part000_navigations_spaced :
  forall (events : list KeyDown) (st : State),
    Forall (fun e => time e <= timeAfter e) events ->
    Forall (fun t => lastEventTime st + 100 < t)
      (navigationTimesOf Part000.keydown events st) /\
    StronglySorted (fun t u => t + 100 < u)
      (navigationTimesOf Part000.keydown events st).
Proof.
  intros events st H. revert st.
  induction H as [| e events He _ IH]; intros st; cbn [navigationTimesOf].
  - split; constructor.
  - destruct (IH (Part000.keydown (key e) (time e) (timeAfter e) st)) as [Hf Hs].
    rewrite selectorRuns_Part000_keydown.
    rewrite lastEventTime_Part000_keydown in Hf.
    destruct (Part000.directionOfKey (key e)) as [d |].
    + destruct (time e - lastEventTime st >? 100) eqn:E.
      * apply Z.gtb_lt in E.
        replace (selectorRuns (page st) <? selectorRuns (page st) + 1)%nat
          with true by (symmetry; apply Nat.ltb_lt; lia).
        cbn [app]. split.
        -- constructor; [lia |].
           eapply Forall_impl; [| exact Hf]. cbn beta. intros; lia.
        -- constructor; [exact Hs |].
           eapply Forall_impl; [| exact Hf]. cbn beta. intros; lia.
      * replace (selectorRuns (page st) <? selectorRuns (page st) + 0)%nat
          with false by (symmetry; apply Nat.ltb_ge; lia).
        cbn [app]. split; assumption.
    + replace (selectorRuns (page st) <? selectorRuns (page st) + 0)%nat
        with false by (symmetry; apply Nat.ltb_ge; lia).
      cbn [app]. split; assumption.
Qed.

Lemma Part000_navigations_spaced_witness :
  StronglySorted (fun t u => t + 100 < u)
    (navigationTimesOf Part000.keydown (repeated "ArrowDown" 1000 26)
       (initialState emptyPage)).
Proof.
  apply (Part000_navigations_spaced (repeated "ArrowDown" 1000 26)
           (initialState emptyPage)).
  repeat constructor; cbn; lia.
Defined.

(** X16.  The older listeners outside the arrow keys.  A Backspace key-down goes
    back in the history once and suppresses the default handling, whatever
    the recorded time, without running the selector or touching the recorded
    time; a key-down or key-up of any other key that is not an arrow key
    changes nothing. *)
Theorem Part000_listeners_other_keys :
  (forall (now now' : Z) (st : State),
      let st' := Part000.keydown "Backspace" now now' st in
      calls (page st') = calls (page st) ++ [HistoryBack; PreventDefault] /\
      historyBacks (page st') = S (historyBacks (page st)) /\
      selectorRuns (page st') = selectorRuns (page st) /\
      activeElement (page st') = activeElement (page st) /\
      lastEventTime st' = lastEventTime st) /\
  (forall (k : string) (now now' : Z) (st : State),
      ~ In k arrowKeys -> k <> "Backspace"%string ->
      Part000.keydown k now now' st = st) /\
  (forall (k : string) (st : State),
      ~ In k arrowKeys -> Part000.keyup k st = st).
Proof.
  assert (Hnone : forall k, ~ In k arrowKeys -> Part000.directionOfKey k = None).
  { intros k Hk. destruct (Part000.directionOfKey k) as [d |] eqn:E;
      [| reflexivity].
    exfalso. apply Hk. eapply directionOfKey_arrow. exact E. }
  split; [| split].
  - intros now now' st st'. subst st'.
    change (Part000.keydown "Backspace" now now' st)
      with {| page := call PreventDefault (call HistoryBack (page st));
              lastEventTime := lastEventTime st |}.
    cbn [page lastEventTime].
    rewrite !historyBacks_call, !selectorRuns_call. cbn [isBack isQuery].
    repeat split; try lia.
    cbn [call calls]. rewrite <- app_assoc. reflexivity.
  - intros k now now' st Hk Hb.
    unfold Part000.keydown. rewrite (Hnone k Hk).
    apply String.eqb_neq in Hb. rewrite Hb. reflexivity.
  - intros k st Hk. unfold Part000.keyup. rewrite (Hnone k Hk). reflexivity.
Qed.

Lemma Part000_listeners_other_keys_witness :
  Part000.keydown "w" 1000 1000 (initialState rankingPage)
  = initialState rankingPage.
Proof.
  apply (proj1 (proj2 Part000_listeners_other_keys)).
  - unfold arrowKeys. cbn [In].
    intros [H | [H | [H | [H | []]]]]; discriminate.
  - discriminate.
Defined.
End OlderListeners.

(** ** The older selector *)

Section OlderSelector.
Local Open Scope R_scope.

Variables (pg : Page) (curRect : DOMRect.t) (cur : Element) (wanted : R).

Lemma bestAmong_more (seen : list Element) (el : Element) (best : Part000.Best) :
  bestAmong curRect cur wanted seen best ->
  bestAmong curRect cur wanted (seen ++ [el]) best.
Proof.
  unfold bestAmong. destruct (Part000.target best); [| auto].
  intros [Hin H]. split; [| exact H]. apply in_or_app. auto.
Qed.

(** One round of the loop keeps what is known about the best candidate. *)
Lemma visit_bestAmong (seen : list Element) (el : Element) (best : Part000.Best) :
  bestAmong curRect cur wanted seen best ->
  bestAmong curRect cur wanted (seen ++ [el])
    (Part000.visit pg curRect cur wanted best el).
Proof.
  intros Hb. pose proof (bestAmong_more seen el best Hb) as Hb'.
  unfold Part000.visit.
  destruct (sameElement el cur) eqn:Hsame; [exact Hb' |].
  destruct (Rgtb _ _) eqn:Hcone; [exact Hb' |].
  apply Rgtb_false in Hcone.
  destruct (negb _ && _); [exact Hb' |].
  destruct (Part000.minIsAligned best && _); [exact Hb' |].
  assert (Hnew : forall dist ang,
             bestAmong curRect cur wanted (seen ++ [el])
               {| Part000.target := Some el;
                  Part000.minDistance := dist;
                  Part000.minAngleDiff := ang;
                  Part000.minIsAligned :=
                    areAligned (getRectDiff curRect (boundingClientRect el)) |}).
  { intros dist ang. unfold bestAmong. cbn [Part000.target Part000.minIsAligned].
    repeat split; auto. apply in_or_app. right. left. reflexivity. }
  unfold Part000.isAligned. rewrite andb_false_r.
  destruct (Part000.ltExt _ _); [apply Hnew |].
  destruct (Part000.leExtPlus _ _ _ && _); [apply Hnew | exact Hb'].
Qed.

Lemma fold_visit_bestAmong (l seen : list Element) (best : Part000.Best) :
  bestAmong curRect cur wanted seen best ->
  bestAmong curRect cur wanted (seen ++ l)
    (fold_left (Part000.visit pg curRect cur wanted) l best).
Proof.
  revert seen best. induction l as [| el l IH]; intros seen best Hb.
  - rewrite app_nil_r. exact Hb.
  - cbn [fold_left].
    replace (seen ++ el :: l) with ((seen ++ [el]) ++ l)
      by (rewrite <- app_assoc; reflexivity).
    apply IH. now apply visit_bestAmong.
Qed.

(** Once the loop has a best candidate it has one to the end. *)
Lemma visit_keeps_target (el : Element) (best : Part000.Best) :
  Part000.target best <> None ->
  Part000.target (Part000.visit pg curRect cur wanted best el) <> None.
Proof.
  intros H. unfold Part000.visit.
  repeat match goal with
         | |- context [if ?c then _ else _] => destruct c
         end; cbn [Part000.target]; try exact H; discriminate.
Qed.

Lemma fold_visit_keeps_target (l : list Element) (best : Part000.Best) :
  Part000.target best <> None ->
  Part000.target (fold_left (Part000.visit pg curRect cur wanted) l best)
  <> None.
Proof.
  revert best. induction l as [| el l IH]; intros best H; cbn [fold_left].
  - exact H.
  - apply IH. now apply visit_keeps_target.
Qed.

(** An aligned element within the cone becomes the best candidate when there
    is none yet. *)
Lemma visit_first_aligned (el : Element) :
  sameElement el cur = false ->
  areAligned (getRectDiff curRect (boundingClientRect el)) = true ->
  inCone curRect wanted el ->
  Part000.target (Part000.visit pg curRect cur wanted Part000.noBest el)
  = Some el.
Proof.
  intros Hsame Hal Hcone. unfold Part000.visit. rewrite Hsame, Hal.
  destruct (Rgtb_false
              (getAngleDiff (minAngle (getRectDiff curRect (boundingClientRect el)))
                 wanted) (PI / 4)) as [_ E].
  rewrite E by exact Hcone.
  reflexivity.
Qed.

Lemma fold_visit_finds_aligned (l : list Element) (best : Part000.Best) :
  bestAmong curRect cur wanted [] best \/ Part000.target best <> None ->
  (exists el, In el l /\ sameElement el cur = false /\
              areAligned (getRectDiff curRect (boundingClientRect el)) = true /\
              inCone curRect wanted el) ->
  Part000.target (fold_left (Part000.visit pg curRect cur wanted) l best)
  <> None.
Proof.
  revert best. induction l as [| x l IH]; intros best Hb [el [Hin H]].
  - destruct Hin.
  - cbn [fold_left].
    destruct (Part000.target best) as [t |] eqn:Ht.
    + apply fold_visit_keeps_target. apply visit_keeps_target.
      rewrite Ht. discriminate.
    + assert (Hno : best = Part000.noBest).
      { destruct Hb as [Hb | Hb]; [| congruence].
        unfold bestAmong in Hb. rewrite Ht in Hb. exact Hb. }
      subst best. destruct Hin as [-> | Hin].
      * apply fold_visit_keeps_target.
        destruct H as [H1 [H2 H3]].
        rewrite visit_first_aligned by assumption. discriminate.
      * apply IH; [| exists el; auto].
        destruct (Part000.target
                    (Part000.visit pg curRect cur wanted Part000.noBest x))
          as [t |] eqn:Hx.
        -- right. discriminate.
        -- left. pose proof (visit_bestAmong [] x Part000.noBest) as Hv.
           unfold bestAmong in Hv at 1. cbn [Part000.target Part000.noBest] in Hv.
           specialize (Hv eq_refl).
           unfold bestAmong in Hv |- *. rewrite Hx in Hv |- *. exact Hv.
Qed.
End OlderSelector.

Section OlderSelectorRequest.
Local Open Scope R_scope.

(** X17.  A request of the older selector with a focused element.  It makes one
    focus call at most, on the best candidate of its loop, and scrolls to it
    without looking whether the focus moved.  The best candidate is a
    focusable element other than the focused one that lies within the cone of
    the direction; and there is one whenever some such element is aligned
    with the focused element. *)
Theorem Part000_moveFocus_target :
  forall (direction : Part000.Direction) (pg : Page) (cur : Element),
    activeElement pg = Some cur ->
    let l := fst (getFocusableElements pg) in
    let curRect := boundingClientRect cur in
    let wanted := Part000.dirToAngle direction in
    let best :=
      fold_left (Part000.visit (call QuerySelectorAll pg) curRect cur wanted)
        l Part000.noBest in
    Part000.moveFocus direction pg =
      match Part000.target best with
      | Some t => scrollIntoView t (focus false t (call QuerySelectorAll pg))
      | None => call QuerySelectorAll pg
      end /\
    (forall t : Element,
        Part000.target best = Some t ->
        In t l /\ sameElement t cur = false /\ inCone curRect wanted t) /\
    ((exists el : Element,
         In el l /\ sameElement el cur = false /\
         areAligned (getRectDiff curRect (boundingClientRect el)) = true /\
         inCone curRect wanted el) ->
     exists t : Element, Part000.target best = Some t).
Proof.
  intros direction pg cur Ha l curRect wanted best.
  split; [| split].
  - unfold Part000.moveFocus, getFocusableElements. rewrite Ha.
    subst best l curRect wanted. unfold getFocusableElements. cbn [fst].
    destruct (filter _ (selectorMatches pg)); reflexivity.
  - intros t Ht.
    pose proof (fold_visit_bestAmong (call QuerySelectorAll pg) curRect cur
                  wanted l [] Part000.noBest eq_refl) as Hb.
    fold best in Hb. unfold bestAmong in Hb. rewrite Ht in Hb.
    cbn [app] in Hb. tauto.
  - intros Hex.
    pose proof (fold_visit_finds_aligned (call QuerySelectorAll pg) curRect cur
                  wanted l Part000.noBest (or_introl eq_refl) Hex) as Hn.
    fold best in Hn. destruct (Part000.target best) as [t |]; [eauto | congruence].
Qed.

Lemma Part000_moveFocus_target_witness :
  exists t : Element,
    Part000.target
      (fold_left
         (Part000.visit (call QuerySelectorAll scenarioPage)
            (boundingClientRect current) current
            (Part000.dirToAngle Part000.ArrowDown))
         (fst (getFocusableElements scenarioPage)) Part000.noBest)
    = Some t.
Proof.
  apply (proj2 (proj2 (Part000_moveFocus_target Part000.ArrowDown scenarioPage
                         current eq_refl))).
  exists under. split; [right; right; left; reflexivity |].
  split; [reflexivity |].
  change (getRectDiff (boundingClientRect current) (boundingClientRect under))
    with (diff (infoOf currentRect under)).
  unfold inCone.
  change (getRectDiff (boundingClientRect current) (boundingClientRect under))
    with (diff (infoOf currentRect under)).
  rewrite diff_under. cbn [areAligned minAngle Part000.dirToAngle].
  split; [reflexivity |].
  rewrite getAngleDiff_diag. pose proof PI_RGT_0. lra.
Defined.
End OlderSelectorRequest.

(** ** The frames of the highlighter *)

Section Frames.
Local Open Scope R_scope.

Lemma lerp_between (a b t : R) : 0 <= t <= 1 -> between a b (lerp a b t).
Proof.
  intros [H0 H1]. unfold between, lerp, Rmin, Rmax.
  destruct (Rle_dec a b); split; nra.
Qed.

Lemma easeOut_range (p : R) : 0 <= p <= 1 -> 0 <= easeOut p <= 1.
Proof.
  intros [H0 H1].
  pose proof (easeOut_monotone 0 p H0) as L.
  pose proof (easeOut_monotone p 1 H1) as U.
  rewrite easeOut_0 in L. rewrite easeOut_1 in U. lra.
Qed.

Lemma lerpPos_range (start now : Z) :
  (start <= now)%Z -> 0 <= lerpPos now start <= 1.
Proof.
  intros H. unfold lerpPos. apply easeOut_range.
  assert (0 <= IZR (now - start)) by (apply IZR_le; lia).
  unfold Math.min, animationTime, Rmin.
  destruct (Rle_dec 1 (IZR (now - start) / 300)); split; lra.
Qed.


(** The state [loop] draws from: the target follows the active element. *)
Lemma loop_state (screenWidth screenHeight : R) (active : option Element)
    (now0 now : Z) (h : Highlighter) :
  fst (loop screenWidth screenHeight active now0 now h) =
  if differs (targetElement h) active
  then {| targetElement := active;
          prevTargetElement := targetElement h;
          targetChangeTime := now0 |}
  else h.
Proof. unfold loop. destruct (differs (targetElement h) active); reflexivity. Qed.

(** The frame [loop] draws: the blend of the two geometries. *)
Lemma loop_style (screenWidth screenHeight : R) (active : option Element)
    (now0 now : Z) (h : Highlighter) :
  let h' := fst (loop screenWidth screenHeight active now0 now h) in
  let p := styleOf screenWidth screenHeight (prevTargetElement h') in
  let q := styleOf screenWidth screenHeight (targetElement h') in
  let t := lerpPos now (targetChangeTime h') in
  snd (loop screenWidth screenHeight active now0 now h) =
  {| Style.top := lerp (Style.top p) (Style.top q) t;
     Style.left := lerp (Style.left p) (Style.left q) t;
     Style.width := lerp (Style.width p) (Style.width q) t;
     Style.height := lerp (Style.height p) (Style.height q) t;
     Style.borderTopLeftRadius :=
       lerp (Style.borderTopLeftRadius p) (Style.borderTopLeftRadius q) t;
     Style.borderTopRightRadius :=
       lerp (Style.borderTopRightRadius p) (Style.borderTopRightRadius q) t;
     Style.borderBottomLeftRadius :=
       lerp (Style.borderBottomLeftRadius p) (Style.borderBottomLeftRadius q) t;
     Style.borderBottomRightRadius :=
       lerp (Style.borderBottomRightRadius p) (Style.borderBottomRightRadius q) t |}.
Proof. unfold loop. destruct (differs (targetElement h) active); reflexivity. Qed.



(** X19.  A frame drawn 300ms or more after the target changed, with the focus
    still on the target, shows the overlay exactly on the target, and the run
    changes nothing in the state. *)
Theorem loop_ends_transition_on_target :
  forall (screenWidth screenHeight : R) (active : option Element)
         (now0 now : Z) (h : Highlighter),
    differs (targetElement h) active = false ->
    (targetChangeTime h + 300 <= now)%Z ->
    loop screenWidth screenHeight active now0 now h
    = (h, styleOf screenWidth screenHeight (targetElement h)).
Proof.
  intros screenWidth screenHeight active now0 now h Hd Ht.
  rewrite (surjective_pairing (loop _ _ _ _ _ _)).
  rewrite loop_style, loop_state, Hd.
  rewrite (lerpPos_settled _ _ Ht), !lerp_1. reflexivity.
Qed.

Lemma loop_ends_transition_on_target_witness :
  loop 1920 1080 (Some current) 1400 1400 restingOnCurrent
  = (restingOnCurrent, styleOf 1920 1080 (Some current)).
Proof.
  apply loop_ends_transition_on_target.
  - reflexivity.
  - cbn. lia.
Defined.

(** X20.  In every frame drawn at or after the start of the transition (and the
    start of a transition the run itself begins), each number of the
    overlay's style lies between its value on the previous target and its
    value on the target: the overlay never overshoots. *)
Theorem loop_overlay_between_the_two :
  forall (screenWidth screenHeight : R) (active : option Element)
         (now0 now : Z) (h : Highlighter),
    (targetChangeTime h <= now)%Z -> (now0 <= now)%Z ->
    let h' := fst (loop screenWidth screenHeight active now0 now h) in
    styleBetween
      (styleOf screenWidth screenHeight (prevTargetElement h'))
      (styleOf screenWidth screenHeight (targetElement h'))
      (snd (loop screenWidth screenHeight active now0 now h)).
Proof.
  intros screenWidth screenHeight active now0 now h Ht H0 h'.
  assert (Hr : 0 <= lerpPos now (targetChangeTime h') <= 1).
  { apply lerpPos_range. subst h'. rewrite loop_state.
    destruct (differs (targetElement h) active); assumption. }
  rewrite loop_style. fold h'.
  unfold styleBetween. cbn [Style.top Style.left Style.width Style.height
    Style.borderTopLeftRadius Style.borderTopRightRadius
    Style.borderBottomLeftRadius Style.borderBottomRightRadius].
  repeat split; apply lerp_between; exact Hr.
Qed.

Lemma loop_overlay_between_the_two_witness :
  styleBetween
    (styleOf 1920 1080 (Some current))
    (styleOf 1920 1080 (Some level))
    (snd (loop 1920 1080 (Some level) 2000 2100 restingOnCurrent)).
Proof.
  apply (loop_overlay_between_the_two 1920 1080 (Some level) 2000 2100
           restingOnCurrent); cbn; lia.
Defined.
End Frames.

(** ** The geometry the highlighter reads *)

Section HighlighterGeometry.
Local Open Scope R_scope.

(** X21.  An element drawn at its layout width keeps each declared radius that does
    not exceed the larger side of its box, and gets that side for a larger
    one. *)
Theorem getBorderRadius_unscaled :
  forall element : Element,
    offsetWidth element = DOMRect.width (boundingClientRect element) ->
    offsetWidth element <> 0 ->
    let side := Rmax (DOMRect.width (boundingClientRect element))
                     (DOMRect.height (boundingClientRect element)) in
    getBorderRadius (Some element) =
    {| topLeft := Rmin side (borderTopLeftRadius element);
       topRight := Rmin side (borderTopRightRadius element);
       bottomLeft := Rmin side (borderBottomLeftRadius element);
       bottomRight := Rmin side (borderBottomRightRadius element) |}.
Proof.
  intros element Hw Hnz side. subst side.
  cbn [getBorderRadius]. unfold Math.min, Math.max.
  rewrite <- Hw.
  replace (offsetWidth element / offsetWidth element) with 1 by (field; exact Hnz).
  rewrite !Rmult_1_l.
  rewrite (Rmax_comm (DOMRect.height _)). reflexivity.
Qed.

Lemma getBorderRadius_unscaled_witness :
  getBorderRadius (Some rounded) =
  {| topLeft := Rmin (Rmax 100 40) 8;
     topRight := Rmin (Rmax 100 40) 8;
     bottomLeft := Rmin (Rmax 100 40) 8;
     bottomRight := Rmin (Rmax 100 40) 8 |}.
Proof.
  apply (getBorderRadius_unscaled rounded).
  - reflexivity.
  - cbn. lra.
Defined.

(** The radii are never negative for an element whose box, scale and declared
    radii are not. *)
Lemma getBorderRadius_nonneg (element : Element) :
  0 <= DOMRect.width (boundingClientRect element) ->
  0 < offsetWidth element ->
  0 <= borderTopLeftRadius element ->
  0 <= topLeft (getBorderRadius (Some element)).
Proof.
  intros Hw Ho Hr. cbn [getBorderRadius topLeft]. unfold Math.min, Math.max.
  apply Rmin_glb.
  - eapply Rle_trans; [exact Hw | apply Rmax_r].
  - apply Rmult_le_pos; [| exact Hr].
    unfold Rdiv. apply Rmult_le_pos; [exact Hw |].
    left. now apply Rinv_0_lt_compat.
Qed.

(** X22.  Without an element the overlay goes to a rect that reaches 100px beyond
    the screen on every side. *)
Theorem getRect_without_element_surrounds_screen :
  forall screenWidth screenHeight : R,
    0 <= screenWidth -> 0 <= screenHeight ->
    let r := getRect screenWidth screenHeight None in
    DOMRect.left r = - 100 /\ DOMRect.top r = - 100 /\
    DOMRect.right r = screenWidth + 100 /\
    DOMRect.bottom r = screenHeight + 100.
Proof.
  intros screenWidth screenHeight Hw Hh r. subst r. cbn [getRect].
  rewrite left_mk, right_mk, top_mk, bottom_mk by lra.
  repeat split; lra.
Qed.

Lemma getRect_without_element_surrounds_screen_witness :
  DOMRect.left (getRect 1920 1080 None) = - 100 /\
  DOMRect.top (getRect 1920 1080 None) = - 100 /\
  DOMRect.right (getRect 1920 1080 None) = 1920 + 100 /\
  DOMRect.bottom (getRect 1920 1080 None) = 1080 + 100.
Proof.
  apply (getRect_without_element_surrounds_screen 1920 1080); lra.
Defined.
End HighlighterGeometry.

(** ** The two ways to follow the focus *)

Section FocusEvents.
Local Open Scope R_scope.


End FocusEvents.

(** ** The highlighting element *)

Section HighlightingElement.

Lemma getElementById_In (document : list string) (id : string) :
  getElementById document id = true <-> In id document.
Proof.
  unfold getElementById. rewrite existsb_exists. split.
  - intros [x [Hin E]]. apply String.eqb_eq in E. subst. exact Hin.
  - intros Hin. exists id. split; [exact Hin | apply String.eqb_refl].
Qed.

(** X24.  The newer script adds the highlighting element to a document that has
    none and leaves a document that has one alone: after it the document has
    the element, a second run changes nothing, and no other element is
    touched.  The older script adds one on every run. *)
Theorem createHighlightingElement_once :
  forall document : list string,
    let document' := createHighlightingElement document in
    getElementById document' highlightingId = true /\
    createHighlightingElement document' = document' /\
    (getElementById document highlightingId = true -> document' = document) /\
    (getElementById document highlightingId = false ->
     document' = document ++ [highlightingId]) /\
    count_occ string_dec (Part000.createHighlightingElement
                            (Part000.createHighlightingElement document))
      highlightingId
    = S (S (count_occ string_dec document highlightingId)).
Proof.
  intros document document'. subst document'.
  assert (H1 : getElementById (createHighlightingElement document) highlightingId
               = true).
  { unfold createHighlightingElement.
    destruct (getElementById document highlightingId) eqn:E; [exact E |].
    apply getElementById_In. apply in_or_app. right. left. reflexivity. }
  split; [exact H1 |]. split; [| split; [| split]].
  - unfold createHighlightingElement at 1. rewrite H1. reflexivity.
  - intros E. unfold createHighlightingElement. rewrite E. reflexivity.
  - intros E. unfold createHighlightingElement. rewrite E. reflexivity.
  - unfold Part000.createHighlightingElement.
    rewrite !count_occ_app.
    change (count_occ string_dec ["highlighting-element"%string] highlightingId)
      with 1%nat.
    lia.
Qed.

Lemma createHighlightingElement_once_witness :
  createHighlightingElement ["main"; "highlighting-element"]%string
  = ["main"; "highlighting-element"]%string.
Proof.
  apply (proj1 (proj2 (proj2 (createHighlightingElement_once
                                ["main"; "highlighting-element"]%string)))).
  reflexivity.
Defined.
End HighlightingElement.

(** ** The other easing curves *)

Section EasingCurves.
Local Open Scope R_scope.

(** X25.  [ease] goes from 0 to 1 without leaving that range or turning back, and
    its second half mirrors its first. *)
Theorem ease_curve :
  ease 0 = 0 /\ ease 1 = 1 /\
  (forall t : R, ease (1 - t) = 1 - ease t) /\
  (forall t : R, 0 <= t <= 1 -> 0 <= ease t <= 1) /\
  (forall s t : R, 0 <= s -> s <= t -> t <= 1 -> ease s <= ease t).
Proof.
  unfold ease. repeat split.
  - rdecide; lra.
  - rdecide; lra.
  - intros t. rdecide; nra.
  - rdecide; nra.
  - rdecide; nra.
  - intros s t H0 Hst H1. rdecide; nra.
Qed.

Lemma ease_curve_witness : 0 <= ease (1 / 4) <= 1 /\ ease (1 / 4) <= ease (3 / 4).
Proof.
  split.
  - apply (proj1 (proj2 (proj2 (proj2 ease_curve)))). lra.
  - apply (proj2 (proj2 (proj2 (proj2 ease_curve)))); lra.
Defined.

Lemma easeOutBounce_range (x : R) : 0 <= x <= 1 -> 0 <= easeOutBounce x <= 1.
Proof.
  intros [H0 H1]. unfold easeOutBounce. cbv zeta.
  rdecide; split; nra.
Qed.

(** X26.  [easeOutBounce] starts at 0, ends at 1, stays within that range in
    between, and touches 1 at the three points where one bounce ends and the
    next begins. *)
Theorem easeOutBounce_curve :
  easeOutBounce 0 = 0 /\ easeOutBounce 1 = 1 /\
  easeOutBounce (4 / 11) = 1 /\ easeOutBounce (8 / 11) = 1 /\
  easeOutBounce (10 / 11) = 1 /\
  (forall x : R, 0 <= x <= 1 -> 0 <= easeOutBounce x <= 1).
Proof.
  split; [| split; [| split; [| split; [| split]]]];
    try (unfold easeOutBounce; cbv zeta; rdecide; lra).
  exact easeOutBounce_range.
Qed.

Lemma easeOutBounce_curve_witness : 0 <= easeOutBounce (1 / 2) <= 1.
Proof.
  apply (proj2 (proj2 (proj2 (proj2 (proj2 easeOutBounce_curve))))). lra.
Defined.

(** X27.  [easeInOutBounce] goes from 0 to 1 within that range, and its second half
    mirrors its first. *)
Theorem easeInOutBounce_curve :
  easeInOutBounce 0 = 0 /\ easeInOutBounce 1 = 1 /\
  (forall x : R, easeInOutBounce (1 - x) = 1 - easeInOutBounce x) /\
  (forall x : R, 0 <= x <= 1 -> 0 <= easeInOutBounce x <= 1).
Proof.
  assert (B0 : easeOutBounce 0 = 0)
    by (unfold easeOutBounce; cbv zeta; rdecide; lra).
  assert (B1 : easeOutBounce 1 = 1)
    by (unfold easeOutBounce; cbv zeta; rdecide; lra).
  split; [| split; [| split]].
  - unfold easeInOutBounce.
    destruct (Rltb_true 0 (5 / 10)) as [_ E]. rewrite E by lra.
    replace (1 - 2 * 0) with 1 by ring. rewrite B1. lra.
  - unfold easeInOutBounce.
    destruct (Rltb_false 1 (5 / 10)) as [_ E]. rewrite E by lra.
    replace (2 * 1 - 1) with 1 by ring. rewrite B1. lra.
  - intros x. unfold easeInOutBounce.
    destruct (Rltb x (5 / 10)) eqn:Hx.
    + apply Rltb_true in Hx.
      destruct (Rltb_false (1 - x) (5 / 10)) as [_ E]. rewrite E by lra.
      replace (2 * (1 - x) - 1) with (1 - 2 * x) by ring. lra.
    + apply Rltb_false in Hx.
      destruct (Req_dec x (5 / 10)) as [-> | Hne].
      * destruct (Rltb_false (1 - 5 / 10) (5 / 10)) as [_ E]. rewrite E by lra.
        replace (2 * (1 - 5 / 10) - 1) with 0 by lra.
        replace (2 * (5 / 10) - 1) with 0 by lra.
        rewrite B0. lra.
      * destruct (Rltb_true (1 - x) (5 / 10)) as [_ E]. rewrite E by lra.
        replace (1 - 2 * (1 - x)) with (2 * x - 1) by ring. lra.
  - intros x [H0 H1]. unfold easeInOutBounce.
    destruct (Rltb x (5 / 10)) eqn:Hx.
    + apply Rltb_true in Hx.
      pose proof (easeOutBounce_range (1 - 2 * x)). lra.
    + apply Rltb_false in Hx.
      pose proof (easeOutBounce_range (2 * x - 1)). lra.
Qed.

Lemma easeInOutBounce_curve_witness : 0 <= easeInOutBounce (1 / 4) <= 1.
Proof.
  apply (proj2 (proj2 (proj2 easeInOutBounce_curve))). lra.
Defined.

Lemma elastic_sin (x : R) :
  sin ((20 * (1 - x) - 11125 / 1000) * (2 * PI / (45 / 10)))
  = sin ((20 * x - 11125 / 1000) * (2 * PI / (45 / 10))).
Proof.
  set (theta := (20 * x - 11125 / 1000) * (2 * PI / (45 / 10))).
  replace ((20 * (1 - x) - 11125 / 1000) * (2 * PI / (45 / 10)))
    with (- (theta + PI)) by (unfold theta; field).
  rewrite sin_neg, neg_sin. ring.
Qed.

(** X28.  [easeInOutElastic] is 0 at 0, 1 at 1 and one half at one half, and its
    second half mirrors its first. *)
Theorem easeInOutElastic_curve :
  easeInOutElastic 0 = 0 /\ easeInOutElastic 1 = 1 /\
  easeInOutElastic (5 / 10) = 5 / 10 /\
  (forall x : R, easeInOutElastic (1 - x) = 1 - easeInOutElastic x).
Proof.
  assert (E0 : easeInOutElastic 0 = 0).
  { unfold easeInOutElastic. cbv zeta.
    destruct (Req_dec_T 0 0) as [_ | N]; [reflexivity | exfalso; apply N; reflexivity]. }
  assert (E1 : easeInOutElastic 1 = 1).
  { unfold easeInOutElastic. cbv zeta.
    destruct (Req_dec_T 1 0) as [H | _]; [lra |].
    destruct (Req_dec_T 1 1) as [_ | N]; [reflexivity | exfalso; apply N; reflexivity]. }
  assert (Eh : easeInOutElastic (5 / 10) = 5 / 10).
  { unfold easeInOutElastic. cbv zeta.
    destruct (Req_dec_T (5 / 10) 0) as [H | _]; [lra |].
    destruct (Req_dec_T (5 / 10) 1) as [H | _]; [lra |].
    destruct (Rltb_false (5 / 10) (5 / 10)) as [_ E]. rewrite E by lra.
    unfold pow2.
    replace (-20 * (5 / 10) + 10) with 0 by lra.
    rewrite Rpower_O by lra.
    replace ((20 * (5 / 10) - 11125 / 1000) * (2 * PI / (45 / 10)))
      with (- (PI / 2)) by field.
    rewrite sin_neg, sin_PI2. lra. }
  split; [exact E0 |]. split; [exact E1 |]. split; [exact Eh |].
  intros x.
  destruct (Req_dec x 0) as [-> | Hx0].
  { replace (1 - 0) with 1 by ring. rewrite E0, E1. ring. }
  destruct (Req_dec x 1) as [-> | Hx1].
  { replace (1 - 1) with 0 by ring. rewrite E0, E1. ring. }
  destruct (Req_dec x (5 / 10)) as [-> | Hxh].
  { replace (1 - 5 / 10) with (5 / 10) by lra. rewrite Eh. lra. }
  unfold easeInOutElastic. cbv zeta.
  destruct (Req_dec_T (1 - x) 0) as [H | _]; [lra |].
  destruct (Req_dec_T (1 - x) 1) as [H | _]; [lra |].
  destruct (Req_dec_T x 0) as [H | _]; [lra |].
  destruct (Req_dec_T x 1) as [H | _]; [lra |].
  rewrite elastic_sin.
  destruct (Rltb x (5 / 10)) eqn:Hx.
  - apply Rltb_true in Hx.
    destruct (Rltb_false (1 - x) (5 / 10)) as [_ E]. rewrite E by lra.
    replace (-20 * (1 - x) + 10) with (20 * x - 10) by ring. lra.
  - apply Rltb_false in Hx.
    destruct (Rltb_true (1 - x) (5 / 10)) as [_ E]. rewrite E by lra.
    replace (20 * (1 - x) - 10) with (-20 * x + 10) by ring. lra.
Qed.
End EasingCurves.

(** ** Which elements a request tries *)

Section Attempts.
Local Open Scope R_scope.

Lemma rankedCandidates_members_witness :
  In (infoOf currentRect level)
    (rankedCandidates (keyToAngle "ArrowRight") current
       [current; lower; level] rankingPage).
Proof.
  apply (proj2 (rankedCandidates_members (keyToAngle "ArrowRight") current
                  [current; lower; level] rankingPage (infoOf currentRect level))).
  exists level. split; [reflexivity |].
  split; [right; right; left; reflexivity |].
  split; [reflexivity |]. split; [reflexivity |]. split.
  - apply inDirection_right. rewrite diff_level. reflexivity.
  - unfold onScreenOrAligned. rewrite diff_level. reflexivity.
Defined.

(** The focus calls of [findFocus] are calls on candidates of its list. *)
Lemma calls_findFocus_incl (l : list Info) :
  forall pg : Page,
  exists tried : list Info,
    calls (snd (findFocus l pg)) = calls pg ++ focusCalls tried /\
    incl tried l.
Proof.
  induction l as [| info l IH]; intros pg; cbn [findFocus].
  - exists []. split; [cbn; now rewrite app_nil_r | apply incl_nil_l].
  - destruct (isElement _ _).
    + exists [info]. cbn [snd]. split; [apply calls_focus |].
      intros i [<- | []]. left. reflexivity.
    + destruct (IH (focus true (element info) pg)) as [tried [E Hincl]].
      exists (info :: tried). split.
      * rewrite E, calls_focus. rewrite <- app_assoc. reflexivity.
      * intros i [<- | Hi]; [left; reflexivity | right; apply Hincl; exact Hi].
Qed.

(** X29.  A request with a focused element never calls [focus] on an element that
    is not a candidate: every focus call it makes is on a focusable element
    (so not on one with a negative tabindex) that is visible, is not the
    focused element, and passes the direction filter. *)
Theorem moveFocus_only_tries_candidates :
  forall (moveAngle : JsValue) (pg : Page) (cur : Element),
    activeElement pg = Some cur ->
    exists added : list Call,
      calls (moveFocus moveAngle pg) = calls pg ++ QuerySelectorAll :: added /\
      (forall (n : nat) (preventScroll : bool),
          In (Focus n preventScroll) added ->
          exists el : Element,
            ident el = n /\
            In el (selectorMatches pg) /\
            (hasTabindex el = false \/ (0 <= tabIndex el)%Z) /\
            sameElement el cur = false /\
            visible el = true /\
            inDirection moveAngle (infoOf (boundingClientRect cur) el) = true).
Proof.
  intros moveAngle pg cur Ha.
  rewrite (moveFocus_with_current moveAngle pg cur Ha).
  set (ranked := rankedCandidates moveAngle cur (fst (getFocusableElements pg))
                   (call QuerySelectorAll pg)).
  destruct (calls_findFocus_incl ranked (call QuerySelectorAll pg))
    as [tried [E Hincl]].
  assert (Htried : forall n b, In (Focus n b) (focusCalls tried) ->
            exists el : Element,
              ident el = n /\ In el (selectorMatches pg) /\
              (hasTabindex el = false \/ (0 <= tabIndex el)%Z) /\
              sameElement el cur = false /\ visible el = true /\
              inDirection moveAngle (infoOf (boundingClientRect cur) el) = true).
  { intros n b Hin. apply in_map_iff in Hin. destruct Hin as [info [Ei Hi]].
    injection Ei as En _.
    apply Hincl in Hi. apply rankedCandidates_In_inv in Hi.
    destruct Hi as [el [E' [Hin [Hne [Hvis [Hdir _]]]]]].
    exists el. rewrite E' in En. cbn [element infoOf] in En.
    unfold getFocusableElements in Hin. cbn [fst] in Hin.
    apply filter_In in Hin. destruct Hin as [Hin Htab].
    rewrite <- E'. repeat split; try assumption.
    apply orb_true_iff in Htab. destruct Htab as [Htab | Htab].
    - left. now apply negb_true_iff in Htab.
    - right. apply Z.geb_le in Htab. exact Htab. }
  destruct (findFocus ranked (call QuerySelectorAll pg)) as [[f |] p];
    cbn [snd] in E.
  - exists (focusCalls tried ++ [ScrollIntoView (ident (element f))]). split.
    + cbn [scrollIntoView call calls]. rewrite E. cbn [call calls].
      rewrite <- !app_assoc. reflexivity.
    + intros n b Hin. apply in_app_or in Hin.
      destruct Hin as [Hin | [Hin | []]]; [eauto | discriminate].
  - exists (focusCalls tried). split.
    + rewrite E. cbn [call calls]. rewrite <- !app_assoc. reflexivity.
    + exact Htried.
Qed.

Lemma moveFocus_only_tries_candidates_witness :
  exists added : list Call,
    calls (moveFocus (keyToAngle "ArrowRight") stubbornPage)
    = calls stubbornPage ++ QuerySelectorAll :: added /\
    (forall (n : nat) (preventScroll : bool),
        In (Focus n preventScroll) added ->
        exists el : Element,
          ident el = n /\
          In el (selectorMatches stubbornPage) /\
          (hasTabindex el = false \/ (0 <= tabIndex el)%Z) /\
          sameElement el current = false /\
          visible el = true /\
          inDirection (keyToAngle "ArrowRight")
            (infoOf (boundingClientRect current) el) = true).
Proof.
  exact (moveFocus_only_tries_candidates (keyToAngle "ArrowRight")
           stubbornPage current eq_refl).
Defined.
End Attempts.
